(** * deafAI: the hearing-loss text degradation engine

    A shallow embedding of [src/deaf-simulator.ts] (class [DeafSimulator])
    and the properties its specification states about it.

    Conventions of the embedding.
    - A JavaScript string is the list of its UTF-16 code units ([jsstring]);
      [length] is then [String.prototype.length].
    - A JavaScript number is an exact integer ([Z]) or rational ([Q]): the
      literals [0.3], [0.4], [0.6], [0.7] and every product and quotient
      stand for their exact values.  A double differs from them by the
      rounding of its last place, which can change a comparison or a
      [Math.round] only at a tie; the statements below are about thresholds,
      counts and lengths and none rests on a tie.
    - [Math.random] is a stream [rng : nat -> Q] of the values it returns, in
      call order; code that draws from it is written in a state monad over
      the number of draws made so far. *)

From Stdlib Require Import ZArith NArith QArith Qround String Ascii List Lia
  DecimalString.
From stdpp Require Import base list gmap.
Import ListNotations.

(** ** JavaScript strings *)

Module Js.

Definition jsstring : Type := list N.

(** A string literal of the source, for ASCII text. *)
Definition js (s : string) : jsstring :=
  List.map N_of_ascii (list_ascii_of_string s).

Definition between (lo hi c : N) : bool := ((lo <=? c) && (c <=? hi))%N.

(** The class [\s] of regular expressions, which is also what [trim]
    removes: WhiteSpace and LineTerminator of ECMAScript. *)
Definition isSpace (c : N) : bool :=
  between 9 13 c || (c =? 32)%N || (c =? 160)%N || (c =? 5760)%N
  || between 8192 8202 c || (c =? 8232)%N || (c =? 8233)%N
  || (c =? 8239)%N || (c =? 8287)%N || (c =? 12288)%N || (c =? 65279)%N.

Definition startsWithSpace (s : jsstring) : bool :=
  match s with
  | c :: _ => isSpace c
  | [] => false
  end.

(** [s.split(/\s+/)]: the pieces between the maximal runs of white space.
    A run at either end leaves an empty piece there, and the empty string
    splits into one empty piece. *)
Fixpoint split (s : jsstring) : list jsstring :=
  match s with
  | [] => [[]]
  | c :: s' =>
      if isSpace c then
        if startsWithSpace s' then split s' else [] :: split s'
      else
        match split s' with
        | w :: ws => (c :: w) :: ws
        | [] => [[c]]
        end
  end.

(** [s.replace(/\s+/g, ' ')]: every maximal run becomes one space. *)
Fixpoint collapseSpaces (s : jsstring) : jsstring :=
  match s with
  | [] => []
  | c :: s' =>
      if isSpace c then
        if startsWithSpace s' then collapseSpaces s' else 32%N :: collapseSpaces s'
      else c :: collapseSpaces s'
  end.

Fixpoint trimStart (s : jsstring) : jsstring :=
  match s with
  | c :: s' => if isSpace c then trimStart s' else s
  | [] => []
  end.

Definition trim (s : jsstring) : jsstring :=
  rev (trimStart (rev (trimStart s))).

(** [parts.join(sep)]. *)
Fixpoint join (sep : jsstring) (parts : list jsstring) : jsstring :=
  match parts with
  | [] => []
  | [p] => p
  | p :: ps => p ++ sep ++ join sep ps
  end.

(** [s.slice(start)] and [s.slice(start, end)]: a negative index counts from
    the end, and both are clamped to the string. *)
Definition sliceIndex (len k : Z) : nat :=
  Z.to_nat (if (k <? 0)%Z then Z.max (len + k) 0 else Z.min k len).

Definition slice (s : jsstring) (start : Z) (stop : option Z) : jsstring :=
  let len := Z.of_nat (length s) in
  let from := sliceIndex len start in
  let to := match stop with Some e => sliceIndex len e | None => length s end in
  firstn (to - from) (skipn from s).

(** Case mapping, one code unit at a time.  The engine only observes it
    through a look-up in tables whose keys are ASCII (so only through the
    units that lower-case to an ASCII letter: [A]-[Z] and the Kelvin sign
    U+212A) and through the upper-casing of ASCII replacements; all other
    units stand for themselves here.  The lower case of U+0130 has two
    units in JavaScript, [i] and U+0307, which are no key either: the
    look-up finds nothing for it, here as there. *)
Definition lowerUnit (c : N) : N :=
  if between 65 90 c then (c + 32)%N
  else if (c =? 8490)%N then 107%N
  else c.

Definition upperUnit (c : N) : N :=
  if between 97 122 c then (c - 32)%N else c.

Definition toLowerCase (s : jsstring) : jsstring := List.map lowerUnit s.
Definition toUpperCase (s : jsstring) : jsstring := List.map upperUnit s.

(** Canonicalisation of a unit under the [i] flag of a regular expression
    without the [u] flag: ASCII letters fold together, and a unit outside
    ASCII never folds onto an ASCII one.  The patterns of the engine hold
    ASCII letters and two caseless symbols, so the folding of other letters
    among themselves is never observed and is left out. *)
Definition canonicalize (c : N) : N := upperUnit c.

(** [pat] matches at the start of [s], ignoring case. *)
Fixpoint prefixIgnoreCase (pat s : jsstring) : bool :=
  match pat, s with
  | [], _ => true
  | p :: pat', c :: s' =>
      (canonicalize p =? canonicalize c)%N && prefixIgnoreCase pat' s'
  | _ :: _, [] => false
  end.

(** [Math.round] and the comparison [<] on numbers. *)
Definition Math_round (x : Q) : Z := Qfloor (x + (1 # 2))%Q.
Definition Qltb (x y : Q) : bool := negb (Qle_bool y x).

#[global] Instance Qlt_dec (x y : Q) : Decision (x < y)%Q :=
  decide (Qnum x * QDen y < Qnum y * QDen x)%Z.

End Js.
Export Js.


(** ** The random source *)

Module Random.

(** A computation that may call [Math.random]: it reads the stream of
    values and threads the number of calls made so far. *)
Definition Rand (A : Type) : Type := (nat -> Q) -> nat -> A * nat.

Definition ret {A : Type} (a : A) : Rand A := fun _ i => (a, i).

Definition bind {A B : Type} (m : Rand A) (k : A -> Rand B) : Rand B :=
  fun rng i => let (a, j) := m rng i in k a rng j.

Definition Math_random : Rand Q := fun rng i => (rng i, S i).

(** What [Math.random] promises about each value. *)
Definition unitInterval (rng : nat -> Q) : Prop :=
  forall i : nat, (0 <= rng i)%Q /\ (rng i < 1)%Q.

End Random.
Export Random.

Notation "'let*' x ':=' m 'in' k" := (bind m (fun x => k))
  (at level 10, x pattern, m at level 100, k at level 200, only parsing).

(** ** The engine: class [DeafSimulator] *)

(** The type [Language] of the source is the union of the three string
    literals ['en'], ['it'] and ['agnostic']; at run time it is a string. *)
Definition Language : Type := string.

Definition en : Language := "en"%string.
Definition it : Language := "it"%string.
Definition agnostic : Language := "agnostic"%string.

Definition recognized (l : Language) : Prop :=
  l = en \/ l = it \/ l = agnostic.

Record DeafSimulatorConfig : Type := mkConfig {
  config_level : Z;
  config_language : Language
}.

Record DeafSimulator : Type := mkSimulator {
  level : Z;
  language : Language
}.

(** How a call ends.  No statement of the class throws; the error is the one
    the specification names, so that what it says about construction can be
    written down. *)
Inductive EngineError : Type := InvalidConfiguration.

Inductive Completion (A : Type) : Type :=
  | Normal (a : A)
  | Throw (e : EngineError).
Arguments Normal {A} a.
Arguments Throw {A} e.

(** [constructor(config)] *)
Definition new_DeafSimulator (config : DeafSimulatorConfig) : Completion DeafSimulator :=
  Normal {| level := Z.max 1 (Z.min 10 (config_level config));
            language := config_language config |}.

Definition getLevel (self : DeafSimulator) : Z := level self.
Definition getLanguage (self : DeafSimulator) : Language := language self.

Inductive Action : Type := keep | garble | partial | drop.

(** The object literal [recognitionRates] of [decideAction]. *)
Definition recognitionRates (l : Z) : option Z :=
  match l with
  | 1 => Some 97
  | 2 => Some 92
  | 3 => Some 85
  | 4 => Some 78
  | 5 => Some 70
  | 6 => Some 60
  | 7 => Some 45
  | 8 => Some 30
  | 9 => Some 18
  | 10 => Some 8
  | _ => None
  end%Z.

(** [recognitionRates[this.level] || 70] *)
Definition keepRate (self : DeafSimulator) : Z :=
  match recognitionRates (level self) with
  | Some r => if (r =? 0)%Z then 70 else r
  | None => 70
  end.

(** The alternatives of the second regular expression of [isImportant], as
    the source file spells them: the sixth Italian one ends in the two units
    U+221A U+00A9. *)
Definition questionWords : list jsstring :=
  [ js "what"; js "who"; js "why"; js "when"; js "where"; js "how";
    js "cosa"; js "chi"; js "perch" ++ [8730%N; 169%N]; js "quando";
    js "dove"; js "come" ].

(** [/^[A-Z]/.test(word)] *)
Definition startsUpper (word : jsstring) : bool :=
  match word with
  | c :: _ => between 65 90 c
  | [] => false
  end.

(** [/^(what|who|...)/i.test(word)] *)
Definition startsQuestion (word : jsstring) : bool :=
  existsb (fun q => prefixIgnoreCase q word) questionWords.

Definition isImportant (word : jsstring) : bool :=
  (5 <? length word)%nat || startsUpper word || startsQuestion word.

Definition importanceBonus (word : jsstring) : Z :=
  if isImportant word then 5 else 0.

Definition keepThreshold (self : DeafSimulator) (word : jsstring) : Z :=
  Z.min 98 (keepRate self + importanceBonus word).

Definition garbleRate (self : DeafSimulator) : Z :=
  if (level self <=? 2)%Z then 2 else if (9 <=? level self)%Z then 5 else 15.

Definition garbleThreshold (self : DeafSimulator) (word : jsstring) : Z :=
  keepThreshold self word + garbleRate self.

Definition partialRate (self : DeafSimulator) : Z :=
  if (level self <=? 2)%Z then 1 else if (9 <=? level self)%Z then 3 else 10.

Definition partialThreshold (self : DeafSimulator) (word : jsstring) : Z :=
  garbleThreshold self word + partialRate self.

Definition decideAction (self : DeafSimulator) (word : jsstring) : Rand Action :=
  let* r := Math_random in
  let roll := (r * 100)%Q in
  if Qltb roll (inject_Z (keepThreshold self word)) then ret keep
  else if Qltb roll (inject_Z (garbleThreshold self word)) then ret garble
  else if Qltb roll (inject_Z (partialThreshold self word)) then ret partial
  else ret drop.

(** *** Confusion tables *)

Definition entry (key : string) (replacements : list string) : jsstring * list jsstring :=
  (js key, List.map js replacements).

Definition agnosticMap : gmap jsstring (list jsstring) :=
  list_to_map
    [ entry "a" ["e"; "o"]; entry "e" ["i"; "a"]; entry "i" ["e"; "y"];
      entry "o" ["u"; "a"]; entry "u" ["o"; "a"]; entry "b" ["p"; "d"];
      entry "c" ["k"; "s"]; entry "d" ["t"; "b"]; entry "f" ["v"; "s"];
      entry "g" ["k"; "j"]; entry "h" [""; "f"]; entry "j" ["g"; "y"];
      entry "k" ["c"; "g"]; entry "l" ["r"; "n"]; entry "m" ["n"; "b"];
      entry "n" ["m"; "l"]; entry "p" ["b"; "t"]; entry "q" ["k"; "g"];
      entry "r" ["l"; "w"]; entry "s" ["z"; "c"]; entry "t" ["d"; "p"];
      entry "v" ["f"; "b"]; entry "w" ["v"; "u"]; entry "x" ["s"; "z"];
      entry "y" ["i"; "j"]; entry "z" ["s"; "j"] ]%string.

Definition englishMap : gmap jsstring (list jsstring) :=
  list_to_map
    [ entry "a" ["e"; "u"; "o"]; entry "e" ["i"; "a"; "u"];
      entry "i" ["e"; "y"; "u"]; entry "o" ["u"; "a"; "oo"];
      entry "u" ["o"; "a"; "oo"]; entry "b" ["p"; "d"; "v"];
      entry "c" ["k"; "s"; "g"]; entry "d" ["t"; "b"; "g"];
      entry "f" ["v"; "th"; "s"]; entry "g" ["k"; "j"; "d"];
      entry "h" [""; "f"; "ch"]; entry "j" ["g"; "ch"; "y"];
      entry "k" ["c"; "g"; "q"]; entry "l" ["r"; "w"; "n"];
      entry "m" ["n"; "b"; "w"]; entry "n" ["m"; "ng"; "l"];
      entry "p" ["b"; "t"; "f"]; entry "q" ["k"; "g"; "c"];
      entry "r" ["l"; "w"; "y"]; entry "s" ["z"; "sh"; "th"];
      entry "t" ["d"; "th"; "p"]; entry "v" ["f"; "b"; "w"];
      entry "w" ["v"; "r"; "u"]; entry "x" ["s"; "z"; "ks"];
      entry "y" ["i"; "j"; "e"]; entry "z" ["s"; "th"; "j"] ]%string.

Definition italianMap : gmap jsstring (list jsstring) :=
  list_to_map
    [ entry "a" ["e"; "o"]; entry "e" ["i"; "a"]; entry "i" ["e"; "u"];
      entry "o" ["u"; "a"]; entry "u" ["o"; "i"]; entry "b" ["p"; "v"];
      entry "c" ["g"; "ch"; "k"]; entry "d" ["t"; "b"]; entry "f" ["v"; "s"];
      entry "g" ["c"; "gh"; "j"]; entry "h" [""]; entry "l" ["r"; "gl"];
      entry "m" ["n"; "mm"]; entry "n" ["m"; "gn"; "nn"];
      entry "p" ["b"; "pp"]; entry "q" ["c"; "k"]; entry "r" ["l"; "rr"];
      entry "s" ["z"; "ss"; "sc"]; entry "t" ["d"; "tt"]; entry "v" ["f"; "b"];
      entry "z" ["s"; "zz"; "ts"];
      (* Italian double consonants *)
      entry "cc" ["c"; "gg"]; entry "gg" ["g"; "cc"]; entry "ss" ["s"; "zz"];
      entry "zz" ["z"; "ss"]; entry "tt" ["t"; "dd"]; entry "dd" ["d"; "tt"];
      entry "pp" ["p"; "bb"]; entry "bb" ["b"; "pp"]; entry "rr" ["r"; "ll"];
      entry "ll" ["l"; "rr"]; entry "mm" ["m"; "nn"]; entry "nn" ["n"; "mm"];
      (* Italian digraphs *)
      entry "gl" ["l"; "gli"]; entry "gn" ["n"; "gni"]; entry "sc" ["s"; "c"];
      entry "ch" ["c"; "k"]; entry "gh" ["g"; "c"] ]%string.

(** The [switch] on [this.language]; its [default] shares the branch of
    ['agnostic']. *)
Definition getSimilarCharsMap (self : DeafSimulator) : gmap jsstring (list jsstring) :=
  if String.eqb (language self) en then englishMap
  else if String.eqb (language self) it then italianMap
  else agnosticMap.

(** [a[i]] for a number [i]: [undefined] outside the array. *)
Definition index {A : Type} (a : list A) (i : Z) : option A :=
  if (i <? 0)%Z then None else a !! Z.to_nat i.

(** [Math.floor(Math.random() * n)] for the value [r] drawn. *)
Definition randomIndex (r : Q) (n : nat) : Z :=
  Qfloor (r * inject_Z (Z.of_nat n)).

(** [char] is an element of the array [chars].  The table is an object
    literal read with [similarChars[lower]]; the elements have at most
    three code units, fewer than any property name of [Object.prototype],
    so the look-up is that of a finite map.  An empty replacement is falsy
    and rejected like a missing one. *)
Definition getSimilarChar (self : DeafSimulator) (char : jsstring) : Rand jsstring :=
  let similarChars := getSimilarCharsMap self in
  let lower := toLowerCase char in
  match similarChars !! lower with
  | None => ret char
  | Some [] => ret char
  | Some replacements =>
      let* r := Math_random in
      match index replacements (randomIndex r (length replacements)) with
      | None => ret char
      | Some [] => ret char
      | Some replacement =>
          ret (if bool_decide (char = toUpperCase char)
               then toUpperCase replacement else replacement)
      end
  end.

(** *** Garbling *)

(** What one turn of the loop of [garbleWord] did; the positions are those
    drawn, in the array as it was at that turn. *)
Inductive Edit : Type :=
  | Replace (pos : nat) (old new : jsstring)
  | Swap (pos : nat)
  | Remove (pos : nat).

(** [Math.ceil(word.length * (this.level / 20))] *)
Definition numChanges (self : DeafSimulator) (word : jsstring) : Z :=
  Qceiling (inject_Z (Z.of_nat (length word)) * (inject_Z (level self) / 20)).

(** The body of the loop, from the draw of [pos] on.  [None] is the
    [continue] taken when [chars[pos]] is [undefined]. *)
Definition garbleTurn (self : DeafSimulator) (chars : list jsstring)
  : Rand (list jsstring * option Edit) :=
  let* r := Math_random in
  let pos := randomIndex r (length chars) in
  let* action := Math_random in
  match index chars pos with
  | None => ret (chars, None)
  | Some currentChar =>
      let p := Z.to_nat pos in
      if Qltb action (4 # 10) then
        let* similar := getSimilarChar self currentChar in
        ret (<[p := similar]> chars, Some (Replace p currentChar similar))
      else if Qltb action (7 # 10) then
        if (pos <? Z.of_nat (length chars) - 1)%Z then
          match index chars (pos + 1) with
          | Some nextChar =>
              ret (<[S p := currentChar]> (<[p := nextChar]> chars), Some (Swap p))
          | None => ret (chars, Some (Swap p))
          end
        else ret (chars, Some (Swap p))
      else ret (delete p chars, Some (Remove p))
  end.

(** The [for] loop with [n] turns left; it returns the array and, for the
    statements about the number of edits, the list of the edits made. *)
Fixpoint garbleLoop (self : DeafSimulator) (n : nat) (chars : list jsstring)
  : Rand (list jsstring * list Edit) :=
  match n with
  | O => ret (chars, [])
  | S n' =>
      match chars with
      | [] => ret (chars, [])
      | _ :: _ =>
          let* turn := garbleTurn self chars in
          let* rest := garbleLoop self n' (fst turn) in
          ret (fst rest, option_list (snd turn) ++ snd rest)
      end
  end.

(** [word.split('')] *)
Definition chars_of (word : jsstring) : list jsstring :=
  List.map (fun c => [c]) word.

(** [garbleWord] together with the edits it made. *)
Definition garbleTrace (self : DeafSimulator) (word : jsstring)
  : Rand (jsstring * list Edit) :=
  if (length word <=? 2)%nat then ret (word, [])
  else
    let* done := garbleLoop self (Z.to_nat (numChanges self word)) (chars_of word) in
    ret (join [] (fst done), snd done).

Definition garbleWord (self : DeafSimulator) (word : jsstring) : Rand jsstring :=
  let* out := garbleTrace self word in ret (fst out).

(** *** Partial words *)

(** [Math.max(1, Math.floor(word.length * keepRatio))] with
    [keepRatio = 1 - this.level / 15] *)
Definition keepLength (self : DeafSimulator) (word : jsstring) : Z :=
  let keepRatio := (1 - inject_Z (level self) / 15)%Q in
  Z.max 1 (Qfloor (inject_Z (Z.of_nat (length word)) * keepRatio)).

Definition ellipsis : jsstring := js "...".

Definition partialWord (self : DeafSimulator) (word : jsstring) : Rand jsstring :=
  if (length word <=? 3)%nat then
    (* [word[0] + '...'], and [undefined + '...'] for the empty word *)
    ret (match word with c :: _ => [c] | [] => js "undefined" end ++ ellipsis)
  else
    let* r := Math_random in
    if Qltb r (6 # 10) then ret (slice word 0 (Some (keepLength self word)) ++ ellipsis)
    else ret (ellipsis ++ slice word (- keepLength self word) None).

(** *** [simulate] *)

Record Degradation : Type := mkDegradation {
  original : jsstring;
  degraded : jsstring;
  lossPercentage : Z
}.

Definition placeholder : jsstring := js "[...]".

(** One turn of the loop over the words: the action decided and the word
    pushed onto [degradedWords], if any.  The counter [droppedCount] of the
    source is never read and is left out. *)
Definition processWord (self : DeafSimulator) (word : jsstring)
  : Rand (Action * option jsstring) :=
  let* action := decideAction self word in
  match action with
  | keep => ret (keep, Some word)
  | garble => let* g := garbleWord self word in ret (garble, Some g)
  | partial => let* p := partialWord self word in ret (partial, Some p)
  | drop =>
      if (7 <=? level self)%Z then
        let* r := Math_random in
        ret (drop, if Qltb r (3 # 10) then Some placeholder else None)
      else ret (drop, None)
  end.

Fixpoint processWords (self : DeafSimulator) (words : list jsstring)
  : Rand (list (Action * option jsstring)) :=
  match words with
  | [] => ret []
  | word :: rest =>
      let* turn := processWord self word in
      let* turns := processWords self rest in
      ret (turn :: turns)
  end.

(** [degraded.split(/\s+/).filter(w => w !== '[...]').length] *)
Definition keptCount (degraded : jsstring) : nat :=
  length (filter (fun w => w <> placeholder) (split degraded)).

(** The expression assigned to [lossPercentage]. *)
Definition lossOf (words : list jsstring) (degraded : jsstring) : Z :=
  if (0 <? length words)%nat then
    Math_round ((1 - inject_Z (Z.of_nat (keptCount degraded))
                     / inject_Z (Z.of_nat (length words))) * 100)
  else 0.

Definition assemble (input : jsstring) (words degradedWords : list jsstring) : Degradation :=
  let degraded := trim (collapseSpaces (join (js " ") degradedWords)) in
  {| original := input;
     degraded := degraded;
     lossPercentage := Z.max 0 (lossOf words degraded) |}.

Definition simulate (self : DeafSimulator) (input : jsstring) : Rand Degradation :=
  let words := split input in
  let* turns := processWords self words in
  ret (assemble input words (omap snd turns)).

(** The turns [simulate] goes through on [input]. *)
Definition turnsOf (self : DeafSimulator) (input : jsstring)
  : Rand (list (Action * option jsstring)) :=
  processWords self (split input).

(** ** The specification's wording *)

Module Spec.

(** The base keep-rate table, by level. *)
Definition baseKeepRate (l : Z) : Z :=
  nth (Z.to_nat (l - 1)) [97; 92; 85; 78; 70; 60; 45; 30; 18; 8]%Z 0%Z.

Definition garbleRate (l : Z) : Z :=
  if decide (l <= 2)%Z then 2 else if decide (l >= 9)%Z then 5 else 15.

Definition partialRate (l : Z) : Z :=
  if decide (l <= 2)%Z then 1 else if decide (l >= 9)%Z then 3 else 10.

(** The decision rule on a roll, for a level and an importance bonus. *)
Definition decide_action (l bonus : Z) (roll : Q) : Action :=
  let keepThreshold := Z.min 98 (baseKeepRate l + bonus) in
  let garbleThreshold := (keepThreshold + garbleRate l)%Z in
  let partialThreshold := (garbleThreshold + partialRate l)%Z in
  if decide (roll < inject_Z keepThreshold)%Q then keep
  else if decide (roll < inject_Z garbleThreshold)%Q then garble
  else if decide (roll < inject_Z partialThreshold)%Q then partial
  else drop.

Definition englishWords : list jsstring :=
  [ js "what"; js "who"; js "why"; js "when"; js "where"; js "how" ].

(** The sixth word is [perch] followed by U+00E9. *)
Definition italianWords : list jsstring :=
  [ js "cosa"; js "chi"; js "perch" ++ [233%N]; js "quando"; js "dove"; js "come" ].

(** The interrogative words of the active language. *)
Definition wordsOf (l : Language) : list jsstring :=
  if String.eqb l en then englishWords
  else if String.eqb l it then italianWords
  else englishWords ++ italianWords.

Definition startsWithAny (ws : list jsstring) (word : jsstring) : Prop :=
  Exists (fun q => prefixIgnoreCase q word = true) ws.

(** A token is important for the language [l]. *)
Definition important (l : Language) (word : jsstring) : Prop :=
  (5 < length word)%nat \/ startsUpper word = true \/ startsWithAny (wordsOf l) word.

(** A token is important when the interrogative words of both languages
    count in every mode. *)
Definition importantAnyLanguage (word : jsstring) : Prop :=
  (5 < length word)%nat \/ startsUpper word = true
  \/ startsWithAny (englishWords ++ italianWords) word.

(** The probability that a uniform roll in [0,100) falls below a keep
    threshold (which lies in [0,100]). *)
Definition keepProbability (keepThreshold : Z) : Q :=
  (inject_Z keepThreshold / 100)%Q.

(** The level stored for a raw level. *)
Definition clamp (l : Z) : Z :=
  if decide (l < 1)%Z then 1%Z else if decide (10 < l)%Z then 10%Z else l.

End Spec.

(** ** Predicates used in the statements and their proofs *)

(** No replacement of an entry is more than one code unit longer than its
    key. *)
Definition shortReplacements (key : jsstring) (reps : list jsstring) : Prop :=
  Forall (fun r : jsstring => (length r <= length key + 1)%nat) reps.

#[local] Instance shortReplacements_dec key reps : Decision (shortReplacements key reps).
Proof. unfold shortReplacements. apply _. Defined.

Definition nonempty (s : jsstring) : Prop := s <> [].

(** What an edit of the log does to the array [chars]: a replacement
    writes [new] at [pos], a swap exchanges the elements at [pos] and
    [pos + 1] when there are both, a removal is [chars.splice(pos, 1)]. *)
Definition applyEdit (chars : list jsstring) (e : Edit) : list jsstring :=
  match e with
  | Replace p _ new => <[p := new]> chars
  | Swap p =>
      match chars !! p, chars !! S p with
      | Some current, Some next => <[S p := current]> (<[p := next]> chars)
      | _, _ => chars
      end
  | Remove p => delete p chars
  end.

(** [new] is what [getSimilarChar] can return for [old]: [old] itself when
    the table has no entry for its lower case, or an empty one, or when the
    replacement drawn is empty; and otherwise a replacement of the entry,
    in upper case when [old] is its own upper case. *)
Definition similarTo (self : DeafSimulator) (old new : jsstring) : Prop :=
  match getSimilarCharsMap self !! toLowerCase old with
  | None => new = old
  | Some [] => new = old
  | Some (r0 :: reps0) =>
      exists replacement : jsstring,
        (replacement ∈ r0 :: reps0) /\
        new = match replacement with
              | [] => old
              | _ :: _ => if bool_decide (old = toUpperCase old)
                          then toUpperCase replacement else replacement
              end
  end.

(** An edit that the loop can make on the array [chars]: its position is
    one of the array, and a replacement found [old] there and wrote a
    result of [getSimilarChar] for it. *)
Definition validEdit (self : DeafSimulator) (chars : list jsstring) (e : Edit) : Prop :=
  match e with
  | Replace p old new => chars !! p = Some old /\ similarTo self old new
  | Swap p | Remove p => (p < length chars)%nat
  end.

(** Every edit of the list is one the loop can make on the array that the
    edits before it left. *)
Fixpoint editsFrom (self : DeafSimulator) (chars : list jsstring) (edits : list Edit) : Prop :=
  match edits with
  | [] => True
  | e :: rest => validEdit self chars e /\ editsFrom self (applyEdit chars e) rest
  end.


(** The turns of [simulate] in which no token is cut to a partial word
    and no placeholder is pushed. *)
Definition quiet (turns : list (Action * option jsstring)) : Prop :=
  Forall (fun t => fst t <> partial /\ snd t <> Some placeholder) turns.

Definition whitespaceOnly (s : jsstring) : Prop :=
  Forall (fun c => isSpace c = true) s.

(** No token of the degraded output is the placeholder marker. *)
Definition noPlaceholder (degraded : jsstring) : Prop :=
  Forall (fun w => w <> placeholder) (split degraded).

(** ** Inputs and random sources of the examples *)

(** The token [a] followed by 200 tokens [b]. *)
Definition manyWords : jsstring := js "a" ++ concat (replicate 200 (js " b")).

(** At level 5 the first roll, 0, keeps the token and every later roll, 99,
    drops it; no placeholder is drawn below level 7. *)
Definition keepFirstOnly : nat -> Q :=
  fun i => match i with O => 0%Q | S _ => (99 # 100)%Q end.

(** The value of [Math.random] that makes [Math.floor(Math.random() * n)]
    the position [p]. *)
Definition positionDraw (p n : nat) : Q := Z.of_nat p # Pos.of_nat n.

(** The draws of one turn after another at position [p] of an array of [n]
    elements, each a replacement: the position, the action 0 and, from
    [choices], the draw that picks the replacement. *)
Definition replaceAt (p n : nat) (choices : list Q) : nat -> Q :=
  fun i => nth i (flat_map (fun choice => [positionDraw p n; 0%Q; choice]) choices) 0%Q.

(** Four replacements that lead an [l] of the Italian table to [r], [rr],
    [ll] and [rr]; and two that lead it to [gl] and [gli]. *)
Definition clusterDraws (p n : nat) : nat -> Q :=
  replaceAt p n [0; 1 # 2; 1 # 2; 1 # 2]%Q.


(** ** The rest of the engine, and its callers *)

(** *** Descriptions *)

Inductive DescriptionKey : Type :=
  | normal | slight | mildLow | mildHigh | moderateLow | moderateHigh
  | moderatelySevere | severeLow | severeHigh | profound.

(** The object literal [descriptions] of [getLevelDescription]; [None] for
    a language that is not one of its three keys. *)
Definition descriptions (l : Language) : option (DescriptionKey -> string) :=
  if String.eqb l en then
    Some (fun k => match k with
      | normal => "Normal hearing (~97%)"
      | slight => "Slight loss (~92%)"
      | mildLow => "Mild loss (~85%)"
      | mildHigh => "Mild loss (~78%)"
      | moderateLow => "Moderate loss (~70%)"
      | moderateHigh => "Moderate loss (~60%)"
      | moderatelySevere => "Moderately severe (~45%)"
      | severeLow => "Severe loss (~30%)"
      | severeHigh => "Severe loss (~18%)"
      | profound => "Profound loss (~8%)"
      end%string)
  else if String.eqb l it then
    Some (fun k => match k with
      | normal => "Udito normale (~97%)"
      | slight => "Perdita lieve (~92%)"
      | mildLow => "Perdita lieve (~85%)"
      | mildHigh => "Perdita lieve (~78%)"
      | moderateLow => "Perdita moderata (~70%)"
      | moderateHigh => "Perdita moderata (~60%)"
      | moderatelySevere => "Moderatamente grave (~45%)"
      | severeLow => "Perdita grave (~30%)"
      | severeHigh => "Perdita grave (~18%)"
      | profound => "Perdita profonda (~8%)"
      end%string)
  else if String.eqb l agnostic then
    Some (fun k => match k with
      | normal => "Normal / Normale (~97%)"
      | slight => "Slight / Lieve (~92%)"
      | mildLow => "Mild / Lieve (~85%)"
      | mildHigh => "Mild / Lieve (~78%)"
      | moderateLow => "Moderate / Moderata (~70%)"
      | moderateHigh => "Moderate / Moderata (~60%)"
      | moderatelySevere => "Mod-Severe / Mod-Grave (~45%)"
      | severeLow => "Severe / Grave (~30%)"
      | severeHigh => "Severe / Grave (~18%)"
      | profound => "Profound / Profonda (~8%)"
      end%string)
  else None.

(** The object literal [levelMap]. *)
Definition levelMap (l : Z) : option DescriptionKey :=
  match l with
  | 1 => Some normal
  | 2 => Some slight
  | 3 => Some mildLow
  | 4 => Some mildHigh
  | 5 => Some moderateLow
  | 6 => Some moderateHigh
  | 7 => Some moderatelySevere
  | 8 => Some severeLow
  | 9 => Some severeHigh
  | 10 => Some profound
  | _ => None
  end%Z.

(** [lang[levelMap[this.level] || 'moderateLow']] with
    [lang = descriptions[this.language]].  [None] stands for a call that
    gives no description: for a language that is not a key of [descriptions]
    the value [lang] is [undefined] and reading its property throws a
    [TypeError] (or, for a name that [Object.prototype] defines, the result
    is [undefined]). *)
Definition getLevelDescription (self : DeafSimulator) : option string :=
  match descriptions (language self) with
  | None => None
  | Some lang =>
      Some (lang (match levelMap (level self) with
                  | Some key => key
                  | None => moderateLow
                  end))
  end.

(** [labels[this.language]]; [None] is a result that is not a label. *)
Definition getLanguageLabel (self : DeafSimulator) : option string :=
  if String.eqb (language self) en then Some "English"%string
  else if String.eqb (language self) it then Some "Italiano"%string
  else if String.eqb (language self) agnostic then Some "Language Agnostic"%string
  else None.

(** The decimal digits of an integer, and the test that a string ends with
    another. *)
Definition decimal (z : Z) : string := NilZero.string_of_int (Z.to_int z).

Definition endsWith (s suffix : string) : bool :=
  (String.length suffix <=? String.length s)%nat
  && String.eqb (substring (String.length s - String.length suffix)
                           (String.length suffix) s) suffix.

(** *** [escapeJs] of the web interface *)

(** [s.replace(/c/g, by)] for a pattern that is one code unit [c] and a
    replacement text [by] without [$]. *)
Fixpoint replaceAll (c : N) (by_ : jsstring) (s : jsstring) : jsstring :=
  match s with
  | [] => []
  | x :: s' => if (x =? c)%N then by_ ++ replaceAll c by_ s' else x :: replaceAll c by_ s'
  end.

(** [escapeJs]: backslash, single quote, double quote, line feed and
    carriage return, in this order. *)
Definition escapeJs (str : jsstring) : jsstring :=
  replaceAll 13 [92; 114]%N
    (replaceAll 10 [92; 110]%N
       (replaceAll 34 [92; 34]%N
          (replaceAll 39 [92; 39]%N
             (replaceAll 92 [92; 92]%N str)))).

(** What [escapeJs] makes of one code unit. *)
Definition escapeUnit (x : N) : jsstring :=
  if (x =? 92)%N then [92; 92]%N
  else if (x =? 39)%N then [92; 39]%N
  else if (x =? 34)%N then [92; 34]%N
  else if (x =? 10)%N then [92; 110]%N
  else if (x =? 13)%N then [92; 114]%N
  else [x].

(** *** Sessions of the web interface *)

Module Web.

Inductive Role : Type := system | user | assistant.

Record ChatMessage : Type := mkMessage {
  role : Role;
  content : jsstring
}.

(** [ApiConfig], which is all an [ApiClient] holds. *)
Record ApiConfig : Type := mkApiConfig {
  baseUrl : jsstring;
  apiKey : jsstring;
  model : jsstring
}.

(** The fields of the object [config] that the session code reads;
    [systemPrompt] is a string or [null]. *)
Record WebConfig : Type := mkWebConfig {
  web_api : ApiConfig;
  web_level : Z;
  web_language : Language;
  systemPrompt : option jsstring
}.

Record Session : Type := mkSession {
  simulator : DeafSimulator;
  client : ApiConfig;
  history : list ChatMessage;
  session_language : Language
}.

(** The body of a request to [/api/chat]. *)
Record ChatBody : Type := mkChatBody {
  sessionId : jsstring;
  message : jsstring;
  body_level : Z;
  body_language : Language
}.

(** The result of [new DeafSimulator(config)], which always completes. *)
Definition construct (l : Z) (lang : Language) : DeafSimulator :=
  match new_DeafSimulator (mkConfig l lang) with
  | Normal self => self
  | Throw _ => mkSimulator l lang
  end.

(** [getOrCreateSession]: the map [sessions] after the call and the session
    returned.  A system prompt that is [null] or empty adds no message. *)
Definition getOrCreateSession (config : WebConfig) (sessions : gmap jsstring Session)
    (id : jsstring) : gmap jsstring Session * Session :=
  match sessions !! id with
  | Some session => (sessions, session)
  | None =>
      let initialHistory :=
        match systemPrompt config with
        | Some (c :: p) => [mkMessage system (c :: p)]
        | _ => []
        end in
      let session :=
        {| simulator := construct (web_level config) (web_language config);
           client := web_api config;
           history := initialHistory;
           session_language := web_language config |} in
      (<[id := session]> sessions, session)
  end.

(** The handler of [POST /api/chat] from [getOrCreateSession] to the push of
    the user message: these statements run without interruption, before the
    handler awaits the chat API.  The session is an object shared with the
    map, so its updates are updates of the map. *)
Definition chatBegin (config : WebConfig) (sessions : gmap jsstring Session)
    (body : ChatBody) : Rand (gmap jsstring Session * Degradation) :=
  let (sessions1, session) := getOrCreateSession config sessions (sessionId body) in
  let changed :=
    negb (level (simulator session) =? body_level body)%Z
    || negb (String.eqb (session_language session) (body_language body)) in
  let session1 :=
    if changed then
      {| simulator := construct (body_level body) (body_language body);
         client := client session;
         history := history session;
         session_language := body_language body |}
    else session in
  let* result := simulate (simulator session1) (message body) in
  let session2 :=
    {| simulator := simulator session1;
       client := client session1;
       history := history session1 ++ [mkMessage user (degraded result)];
       session_language := session_language session1 |} in
  ret (<[sessionId body := session2]> sessions1, result).

(** A session as the code leaves it: its two records of the language agree
    and its level is clamped. *)
Definition coherent (s : Session) : Prop :=
  session_language s = language (simulator s) /\ (1 <= level (simulator s) <= 10)%Z.

End Web.
Import Web.

(** ** Predicates of the further properties *)

(** An ASCII letter; the edits of [garbleWord] that are removals. *)
Definition isLetter (c : N) : bool := between 65 90 c || between 97 122 c.
Definition isRemove (e : Edit) : bool :=
  match e with Remove _ => true | _ => false end.
Definition removals (edits : list Edit) : nat := length (List.filter isRemove edits).

Definition lowercaseReplacements (key : jsstring) (reps : list jsstring) : Prop :=
  Forall (Forall (fun u => between 97 122 u = true)) reps.
#[local] Instance lowercaseReplacements_dec key reps : Decision (lowercaseReplacements key reps).
Proof. unfold lowercaseReplacements. apply _. Defined.

Definition unitReplacements (key : jsstring) (reps : list jsstring) : Prop :=
  Forall (fun r : jsstring => (length r <= 1)%nat) reps.
#[local] Instance unitReplacements_dec key reps : Decision (unitReplacements key reps).
Proof. unfold unitReplacements. apply _. Defined.

Definition lowercaseKey (key : jsstring) (reps : list jsstring) : Prop :=
  Forall (fun u => between 97 122 u = true) key.
#[local] Instance lowercaseKey_dec key reps : Decision (lowercaseKey key reps).
Proof. unfold lowercaseKey. apply _. Defined.

Definition noLetter (u : N) : Prop := isLetter u = false /\ u <> 8490%N.

(** An edit of the log is fair for a property [P] of the elements when a
    replacement was made on an element that has [P] and wrote what
    [getSimilarChar] returned for it. *)
Definition fair (self : DeafSimulator) (rng : nat -> Q) (P : jsstring -> Prop)
    (e : Edit) : Prop :=
  match e with
  | Replace _ old new => P old /\ exists j, new = fst (getSimilarChar self old rng j)
  | _ => True
  end.

(** Words of ASCII letters of one case. *)
Definition lowercaseWord (w : jsstring) : Prop := Forall (fun u => between 97 122 u = true) w.
Definition uppercaseWord (w : jsstring) : Prop := Forall (fun u => between 65 90 u = true) w.


(** A word without white space. *)
Definition spaceFree (w : jsstring) : Prop := Forall (fun c => isSpace c = false) w.

(** Every white-space unit is a single U+0020 that no white space follows. *)
Fixpoint tight (s : jsstring) : Prop :=
  match s with
  | [] => True
  | c :: s' => (isSpace c = true -> c = 32%N /\ startsWithSpace s' = false) /\ tight s'
  end.

(** The words that are not empty, in order. *)
Definition nonemptyWords (ws : list jsstring) : list jsstring :=
  filter (fun w : jsstring => w <> []) ws.

(** No turn drops its word. *)
Definition everyWordPushed (turns : list (Action * option jsstring)) : Prop :=
  Forall (fun t => fst t <> drop /\ is_Some (snd t)) turns.


(** ** Numbers *)

Lemma Qltb_lt (x y : Q) : Qltb x y = true <-> (x < y)%Q.
Proof.
  unfold Qltb. rewrite negb_true_iff, <- not_true_iff_false, Qle_bool_iff.
  split; [apply Qnot_le_lt | apply Qlt_not_le].
Qed.

Lemma Qltb_decide (x y : Q) : Qltb x y = bool_decide (x < y)%Q.
Proof.
  destruct (Qltb x y) eqn:E; symmetry.
  - apply bool_decide_eq_true, Qltb_lt, E.
  - apply bool_decide_eq_false. intros H%Qltb_lt. congruence.
Qed.

Lemma if_Qltb {A : Type} (x y : Q) (a b : A) :
  (if Qltb x y then a else b) = (if decide (x < y)%Q then a else b).
Proof. rewrite Qltb_decide. symmetry. apply decide_bool_decide. Qed.

Lemma level_cases (l : Z) :
  (1 <= l <= 10)%Z ->
  l = 1%Z \/ l = 2%Z \/ l = 3%Z \/ l = 4%Z \/ l = 5%Z \/ l = 6%Z
  \/ l = 7%Z \/ l = 8%Z \/ l = 9%Z \/ l = 10%Z.
Proof. lia. Qed.

Ltac each_level H :=
  apply level_cases in H;
  repeat (destruct H as [H | H]); subst.

(** ** The action selector *)

Lemma keepRate_table (self : DeafSimulator) :
  (1 <= level self <= 10)%Z -> keepRate self = Spec.baseKeepRate (level self).
Proof.
  destruct self as [l lang]; simpl. intros H. unfold keepRate; simpl.
  each_level H; reflexivity.
Qed.

Lemma garbleRate_spec (self : DeafSimulator) :
  garbleRate self = Spec.garbleRate (level self).
Proof.
  unfold garbleRate, Spec.garbleRate.
  destruct (level self <=? 2)%Z eqn:E1, (9 <=? level self)%Z eqn:E2;
    repeat case_decide; lia.
Qed.

Lemma partialRate_spec (self : DeafSimulator) :
  partialRate self = Spec.partialRate (level self).
Proof.
  unfold partialRate, Spec.partialRate.
  destruct (level self <=? 2)%Z eqn:E1, (9 <=? level self)%Z eqn:E2;
    repeat case_decide; lia.
Qed.

Lemma roll_range (r : Q) : (0 <= r)%Q /\ (r < 1)%Q -> (0 <= r * 100)%Q /\ (r * 100 < 100)%Q.
Proof.
  intros [H0 H1]. destruct r as [n d]. unfold Qle, Qlt, Qmult in *; simpl in *. lia.
Qed.

(** C1. For every token and every level in [1,10], [decideAction] makes one
    draw, its roll lies in [0,100), and the action is the one the cumulative
    thresholds give: keep below [min(98, baseKeepRate[level] + bonus)], then
    garble over the next 2, 5 or 15 points, then partial over the next 1, 3
    or 10, and drop otherwise. *)
Theorem decideAction_cumulative_thresholds
    (self : DeafSimulator) (word : jsstring) (rng : nat -> Q) (i : nat) :
  (1 <= level self <= 10)%Z ->
  unitInterval rng ->
  let roll := (rng i * 100)%Q in
  ((0 <= roll)%Q /\ (roll < 100)%Q) /\
  decideAction self word rng i
  = (Spec.decide_action (level self) (importanceBonus word) roll, S i).
Proof.
  intros Hl Hr roll. split; [apply roll_range, Hr |].
  unfold decideAction, bind, Math_random, Spec.decide_action.
  unfold partialThreshold, garbleThreshold, keepThreshold.
  rewrite keepRate_table, garbleRate_spec, partialRate_spec by assumption.
  fold roll. rewrite !if_Qltb.
  repeat case_decide; reflexivity.
Qed.

Lemma decideAction_cumulative_thresholds_witness :
  let self := mkSimulator 5 en in
  let rng := fun _ : nat => (9 # 10)%Q in
  decideAction self (js "hello") rng 0 = (partial, 1%nat).
Proof.
  intros self rng.
  assert (Hr : unitInterval rng) by (intros j; unfold rng, Qle, Qlt; simpl; lia).
  assert (Hl : (1 <= level self <= 10)%Z) by (simpl; lia).
  destruct (decideAction_cumulative_thresholds self (js "hello") rng 0 Hl Hr) as [_ H].
  rewrite H. reflexivity.
Defined.

Lemma keepThreshold_antitone (l1 l2 : Z) (lang : Language) (word : jsstring) :
  (1 <= l1)%Z -> (l1 < l2)%Z -> (l2 <= 10)%Z ->
  (keepRate (mkSimulator l2 lang) <= keepRate (mkSimulator l1 lang))%Z /\
  (keepThreshold (mkSimulator l2 lang) word <= keepThreshold (mkSimulator l1 lang) word)%Z.
Proof.
  intros H1 H12 H2. unfold keepThreshold.
  assert (Hl1 : (1 <= l1 <= 10)%Z) by lia.
  assert (Hl2 : (1 <= l2 <= 10)%Z) by lia.
  assert (keepRate (mkSimulator l2 lang) <= keepRate (mkSimulator l1 lang))%Z; [| lia].
  unfold keepRate; simpl.
  each_level Hl1; each_level Hl2; simpl; lia.
Qed.

(** C5. The base keep rates are 97, 92, 85, 78, 70, 60, 45, 30, 18, 8 for the
    levels 1 to 10 and never increase with the level; hence for levels
    L1 < L2 in [1,10] and any token and language the keep threshold, and the
    probability [keepThreshold/100] of the keep outcome, at L1 is at least
    that at L2 -- indeed every roll that keeps the token at L2 keeps it at
    L1. *)
Theorem keep_rate_table_monotone
    (l1 l2 : Z) (lang : Language) (word : jsstring) (rng : nat -> Q) (i : nat) :
  (1 <= l1)%Z -> (l1 < l2)%Z -> (l2 <= 10)%Z ->
  let s1 := mkSimulator l1 lang in
  let s2 := mkSimulator l2 lang in
  List.map (fun l => keepRate (mkSimulator l lang)) [1; 2; 3; 4; 5; 6; 7; 8; 9; 10]%Z
    = [97; 92; 85; 78; 70; 60; 45; 30; 18; 8]%Z /\
  (keepRate s2 <= keepRate s1)%Z /\
  (Spec.keepProbability (keepThreshold s2 word)
     <= Spec.keepProbability (keepThreshold s1 word))%Q /\
  (fst (decideAction s2 word rng i) = keep -> fst (decideAction s1 word rng i) = keep).
Proof.
  intros H1 H12 H2 s1 s2.
  destruct (keepThreshold_antitone l1 l2 lang word H1 H12 H2) as [Hr Ht].
  split; [reflexivity |]. split; [exact Hr |]. split.
  - unfold Spec.keepProbability. apply Qmult_le_compat_r; [| discriminate].
    rewrite <- Zle_Qle. exact Ht.
  - unfold decideAction, bind, Math_random. fold s1 s2.
    destruct (Qltb (rng i * 100) (inject_Z (keepThreshold s2 word))) eqn:E2.
    + intros _. apply Qltb_lt in E2.
      assert (E1 : Qltb (rng i * 100) (inject_Z (keepThreshold s1 word)) = true).
      { apply Qltb_lt. eapply Qlt_le_trans; [exact E2 |]. rewrite <- Zle_Qle. exact Ht. }
      rewrite E1. reflexivity.
    + repeat (destruct (Qltb _ _)); simpl; congruence.
Qed.

Lemma keep_rate_table_monotone_witness :
  (Spec.keepProbability (keepThreshold (mkSimulator 7 it) (js "pallone"))
     <= Spec.keepProbability (keepThreshold (mkSimulator 3 it) (js "pallone")))%Q.
Proof.
  refine (proj1 (proj2 (proj2
    (keep_rate_table_monotone 3 7 it (js "pallone") (fun _ => 0%Q) 0 _ _ _))));
    lia.
Defined.

(** ** Construction *)

(** The claim C4 as it is worded fails: construction with the language
    ['fr'] completes normally. *)
Lemma construction_unrecognized_language_no_error :
  ~ recognized "fr"%string /\
  new_DeafSimulator (mkConfig 5 "fr"%string) = Normal (mkSimulator 5 "fr"%string) /\
  new_DeafSimulator (mkConfig 5 "fr"%string) <> Throw InvalidConfiguration.
Proof.
  split; [| split]; [| reflexivity | discriminate].
  unfold recognized, en, it, agnostic. intros [H | [H | H]]; discriminate.
Qed.

(** C4, amended. Construction clamps every raw integer level into [1,10]
    and never fails: the language is stored as it is given, and for a
    language outside the three modes the confusion table is the agnostic
    one. *)
Theorem construction_clamps_and_never_fails (l : Z) (lang : Language) :
  exists self : DeafSimulator,
    new_DeafSimulator (mkConfig l lang) = Normal self /\
    level self = Spec.clamp l /\
    (1 <= level self <= 10)%Z /\
    language self = lang /\
    (~ recognized lang -> getSimilarCharsMap self = agnosticMap).
Proof.
  eexists. split; [reflexivity |]. simpl.
  split; [| split; [| split]].
  - unfold Spec.clamp. repeat case_decide; lia.
  - lia.
  - reflexivity.
  - intros Hn. unfold getSimilarCharsMap; simpl.
    destruct (String.eqb lang en) eqn:E1.
    { apply String.eqb_eq in E1. exfalso. apply Hn. left. exact E1. }
    destruct (String.eqb lang it) eqn:E2.
    { apply String.eqb_eq in E2. exfalso. apply Hn. right. left. exact E2. }
    reflexivity.
Qed.

(** ** Importance of a token *)

Lemma prefixIgnoreCase_length (q w : jsstring) :
  prefixIgnoreCase q w = true -> (length q <= length w)%nat.
Proof.
  revert w. induction q as [| p q IH]; intros w H; simpl in *; [lia |].
  destruct w as [| c w]; [discriminate |].
  apply andb_true_iff in H as [_ H]. apply IH in H. simpl. lia.
Qed.

Lemma startsWithAny_existsb (ws : list jsstring) (word : jsstring) :
  Spec.startsWithAny ws word <-> existsb (fun q => prefixIgnoreCase q word) ws = true.
Proof.
  unfold Spec.startsWithAny. rewrite Exists_exists, existsb_exists.
  split; intros [q [Hin Hq]]; exists q; split; try assumption;
    apply list_elem_of_In; assumption.
Qed.

(** The two spellings of the sixth Italian word only match tokens that are
    important by their length already. *)
Lemma long_prefix_irrelevant (q word : jsstring) :
  (5 < length q)%nat -> (length word <= 5)%nat -> prefixIgnoreCase q word = false.
Proof.
  intros Hq Hw. destruct (prefixIgnoreCase q word) eqn:E; [| reflexivity].
  apply prefixIgnoreCase_length in E. lia.
Qed.

Lemma questionWords_short (word : jsstring) :
  (length word <= 5)%nat ->
  startsQuestion word
  = existsb (fun q => prefixIgnoreCase q word) (Spec.englishWords ++ Spec.italianWords).
Proof.
  intros Hw. unfold startsQuestion.
  change questionWords with
    ((Spec.englishWords ++ [js "cosa"; js "chi"])
       ++ [js "perch" ++ [8730%N; 169%N]] ++ [js "quando"; js "dove"; js "come"]).
  change (Spec.englishWords ++ Spec.italianWords) with
    ((Spec.englishWords ++ [js "cosa"; js "chi"])
       ++ [js "perch" ++ [233%N]] ++ [js "quando"; js "dove"; js "come"]).
  rewrite !existsb_app. f_equal. f_equal.
  unfold existsb.
  rewrite !long_prefix_irrelevant; try assumption; simpl; lia.
Qed.

Lemma isImportant_any_language (word : jsstring) :
  isImportant word = true <-> Spec.importantAnyLanguage word.
Proof.
  unfold isImportant, Spec.importantAnyLanguage.
  rewrite startsWithAny_existsb, !orb_true_iff, Nat.ltb_lt.
  destruct (le_lt_dec (length word) 5) as [Hw | Hw].
  - rewrite questionWords_short by assumption. tauto.
  - split; intros _; auto.
Qed.

(** The claim C6 as it is worded fails: in English mode the token [cosa]
    is short, lower case and starts with no English interrogative word, and
    yet it gets the bonus. *)
Lemma importance_ignores_language :
  ~ Spec.important en (js "cosa") /\ importanceBonus (js "cosa") = 5%Z.
Proof.
  split; [| reflexivity].
  unfold Spec.important. rewrite startsWithAny_existsb.
  intros [H | [H | H]].
  - simpl in H. lia.
  - discriminate H.
  - vm_compute in H. discriminate H.
Qed.

(** C6, amended. In every language mode the bonus is 5 exactly when the
    token has more than 5 code units, or starts with one of [A]-[Z], or
    starts, ignoring case, with one of the interrogative words of either
    language -- what, who, why, when, where, how, cosa, chi, perche' (with
    U+00E9), quando, dove, come; it is 0 otherwise. *)
Theorem importance_bonus_any_language (self : DeafSimulator) (word : jsstring) :
  (Spec.importantAnyLanguage word -> importanceBonus word = 5%Z) /\
  (~ Spec.importantAnyLanguage word -> importanceBonus word = 0%Z) /\
  keepThreshold self word = Z.min 98 (keepRate self + importanceBonus word).
Proof.
  split; [| split]; [| | reflexivity];
    unfold importanceBonus; rewrite <- isImportant_any_language;
    destruct (isImportant word); intros H;
    try reflexivity; try discriminate H.
  exfalso. apply H. reflexivity.
Qed.

(** ** Partial words *)

Lemma Qfloor_scaled (a b : Z) (d : positive) :
  Qfloor (inject_Z a * (inject_Z b / inject_Z (Zpos d))) = (a * b / Zpos d)%Z.
Proof.
  transitivity (Qfloor (a * b # d)); [| reflexivity].
  apply Qfloor_comp.
  unfold Qeq, Qmult, Qdiv, Qinv, inject_Z; simpl. lia.
Qed.

Lemma keepLength_Z (self : DeafSimulator) (word : jsstring) :
  keepLength self word
  = Z.max 1 (Z.of_nat (length word) * (15 - level self) / 15).
Proof.
  unfold keepLength. f_equal.
  rewrite <- (Qfloor_scaled _ _ 15).
  apply Qfloor_comp.
  unfold Qeq, Qmult, Qdiv, Qinv, Qminus, Qplus, Qopp, inject_Z; simpl. lia.
Qed.

Lemma numChanges_Z (self : DeafSimulator) (word : jsstring) :
  numChanges self word = (- (- (Z.of_nat (length word) * level self) / 20))%Z.
Proof.
  unfold numChanges, Qceiling. f_equal.
  rewrite <- Z.mul_opp_l, <- (Qfloor_scaled _ _ 20).
  apply Qfloor_comp.
  unfold Qeq, Qmult, Qdiv, Qinv, Qminus, Qplus, Qopp, inject_Z; simpl. lia.
Qed.

Lemma slice_start (word : jsstring) (k : Z) :
  (0 <= k <= Z.of_nat (length word))%Z ->
  slice word 0 (Some k) = firstn (Z.to_nat k) word.
Proof.
  intros Hk. unfold slice, sliceIndex.
  replace (0 <? 0)%Z with false by reflexivity.
  destruct (k <? 0)%Z eqn:E; [lia |].
  rewrite Z.min_l, Z.min_l by lia. simpl. rewrite Nat.sub_0_r. reflexivity.
Qed.

Lemma slice_end (word : jsstring) (k : Z) :
  (0 < k <= Z.of_nat (length word))%Z ->
  slice word (- k) None = skipn (length word - Z.to_nat k) word.
Proof.
  intros Hk. unfold slice, sliceIndex.
  destruct (- k <? 0)%Z eqn:E; [| lia].
  rewrite Z.max_l by lia.
  replace (Z.to_nat (Z.of_nat (length word) + - k)) with (length word - Z.to_nat k)%nat by lia.
  apply take_ge. rewrite length_drop. lia.
Qed.

Lemma keepLength_range (self : DeafSimulator) (word : jsstring) :
  (1 <= level self <= 10)%Z -> (0 < length word)%nat ->
  (1 <= keepLength self word <= Z.of_nat (length word))%Z.
Proof.
  intros Hl Hw. rewrite keepLength_Z. split; [lia |].
  apply Z.max_lub; [lia |].
  apply Z.div_le_upper_bound; nia.
Qed.

(** C8 (what the code does). For a token of more than 3 code units and a
    level in [1,10], [partialWord] keeps
    [k = max(1, floor(length * (1 - level/15)))] code units, with
    [1 <= k <= length]: the first [k] followed by the ellipsis when its draw
    is below 0.6, and otherwise the ellipsis followed by the last [k].  A
    token of 1 to 3 code units becomes its first unit followed by the
    ellipsis.  The empty token, which is one of at most 3 code units too,
    has no first unit: [word[0]] is [undefined], and the result is the text
    [undefined...]. *)
Theorem partialWord_truncation
    (self : DeafSimulator) (word : jsstring) (rng : nat -> Q) (i : nat) :
  (1 <= level self <= 10)%Z ->
  let n := length word in
  let k := Z.to_nat (Z.max 1 (Qfloor (inject_Z (Z.of_nat n)
                                       * (1 - inject_Z (level self) / 15)))) in
  ((3 < n)%nat ->
     (1 <= k <= n)%nat /\
     partialWord self word rng i
     = (if decide (rng i < 6 # 10)%Q then firstn k word ++ ellipsis
        else ellipsis ++ skipn (n - k) word, S i)) /\
  (forall c rest, word = c :: rest -> (n <= 3)%nat ->
     partialWord self word rng i = ([c] ++ ellipsis, i)) /\
  (word = [] ->
     (n <= 3)%nat /\
     partialWord self word rng i = (js "undefined...", i) /\
     forall c : N, partialWord self word rng i <> ([c] ++ ellipsis, i)).
Proof.
  intros Hl n k.
  assert (Ek : k = Z.to_nat (keepLength self word)) by reflexivity.
  clearbody k. subst k. subst n. split; [| split].
  - intros Hn.
    pose proof (keepLength_range self word Hl ltac:(lia)) as Hk.
    split; [lia |].
    unfold partialWord, bind, Math_random, ret.
    destruct (length word <=? 3)%nat eqn:E; [apply Nat.leb_le in E; lia |].
    rewrite if_Qltb, slice_start, slice_end by lia.
    case_decide; reflexivity.
  - intros c rest -> Hn. unfold partialWord, ret.
    destruct (length (c :: rest) <=? 3)%nat eqn:E; [reflexivity |].
    apply Nat.leb_gt in E. lia.
  - intros ->. split; [simpl; lia |]. split; [reflexivity |].
    intros c. discriminate.
Qed.

Lemma partialWord_truncation_witness :
  partialWord (mkSimulator 10 it) (js "pallone") (fun _ => (1 # 2)%Q) 0
  = (js "pa...", 1%nat) /\
  partialWord (mkSimulator 10 agnostic) (js "") (fun _ => (14 # 100)%Q) 1
  = (js "undefined...", 1%nat).
Proof.
  split.
  - refine (proj2 (proj1 (partialWord_truncation (mkSimulator 10 it) (js "pallone")
                            (fun _ => (1 # 2)%Q) 0 _) _)); simpl; lia.
  - refine (proj1 (proj2 (proj2 (proj2 (partialWord_truncation (mkSimulator 10 agnostic)
                            (js "") (fun _ => (14 # 100)%Q) 1 _)) _))).
    + simpl. lia.
    + reflexivity.
Defined.

(** ** Garbling *)

Lemma randomIndex_range (r : Q) (n : nat) :
  (0 <= r)%Q /\ (r < 1)%Q -> (0 < n)%nat ->
  (0 <= randomIndex r n < Z.of_nat n)%Z.
Proof.
  intros [H0 H1] Hn. unfold randomIndex.
  set (m := inject_Z (Z.of_nat n)).
  assert (Hm : (0 < m)%Q) by (unfold m; rewrite <- (Zlt_Qlt 0); lia).
  split.
  - change 0%Z with (Qfloor 0). apply Qfloor_resp_le.
    apply Qmult_le_0_compat; [assumption | apply Qlt_le_weak, Hm].
  - rewrite Zlt_Qlt. eapply Qle_lt_trans; [apply Qfloor_le |].
    fold m. rewrite <- (Qmult_1_l m) at 2. apply Qmult_lt_r; assumption.
Qed.

Lemma index_Some {A : Type} (a : list A) (i : Z) :
  (0 <= i < Z.of_nat (length a))%Z ->
  exists x, index a i = Some x /\ a !! Z.to_nat i = Some x.
Proof.
  intros Hi. unfold index. destruct (i <? 0)%Z eqn:E; [lia |].
  destruct (lookup_lt_is_Some_2 a (Z.to_nat i)) as [x Hx]; [lia |].
  exists x. auto.
Qed.

Lemma index_lookup {A : Type} (a : list A) (i : Z) (x : A) :
  index a i = Some x -> a !! Z.to_nat i = Some x.
Proof. unfold index. destruct (i <? 0)%Z; [discriminate | auto]. Qed.

Lemma tables_short (self : DeafSimulator) : map_Forall shortReplacements (getSimilarCharsMap self).
Proof.
  unfold getSimilarCharsMap.
  destruct (_ =? _)%string; [| destruct (_ =? _)%string];
    apply (bool_decide_unpack _); vm_compute; reflexivity.
Qed.

Lemma length_toLowerCase s : length (toLowerCase s) = length s.
Proof. apply length_map. Qed.
Lemma length_toUpperCase s : length (toUpperCase s) = length s.
Proof. apply length_map. Qed.

Lemma join_nil (parts : list jsstring) : join [] parts = concat parts.
Proof.
  induction parts as [| p ps IH]; [reflexivity |].
  simpl. destruct ps as [| q qs]; [symmetry; apply app_nil_r |].
  rewrite IH. reflexivity.
Qed.

Lemma length_concat_insert (chars : list jsstring) (p : nat) (old new : jsstring) :
  chars !! p = Some old ->
  (length (concat (<[p := new]> chars)) + length old
   = length (concat chars) + length new)%nat.
Proof.
  revert p. induction chars as [| c chars IH]; intros p H; [discriminate |].
  destruct p as [| p]; simpl in *.
  - injection H as ->. rewrite !length_app. lia.
  - rewrite !length_app. specialize (IH p H). lia.
Qed.

Lemma length_concat_delete (chars : list jsstring) (p : nat) :
  (length (concat (delete p chars)) <= length (concat chars))%nat.
Proof.
  revert p. induction chars as [| c chars IH]; intros p; [destruct p; simpl; lia |].
  destruct p as [| p]; simpl; rewrite ?length_app; [lia |].
  specialize (IH p). lia.
Qed.

Lemma concat_nonempty (chars : list jsstring) :
  chars <> [] -> Forall nonempty chars -> concat chars <> [].
Proof.
  intros Hc Hall. destruct chars as [| c chars]; [congruence |].
  inversion Hall as [| ? ? Hne _]; subst. simpl.
  destruct c; [unfold nonempty in Hne; congruence | discriminate].
Qed.

(** The invariants of the loop of [garbleWord], for one engine and one
    random source whose values lie in [0,1). *)
Section GarbleInvariants.

Variable self : DeafSimulator.
Variable rng : nat -> Q.
Hypothesis Hrng : unitInterval rng.

Lemma getSimilarChar_cases (char : jsstring) (i : nat) :
  let out := fst (getSimilarChar self char rng i) in
  out = char \/
  exists reps r,
    getSimilarCharsMap self !! toLowerCase char = Some reps /\
    r ∈ reps /\ r <> [] /\ (out = r \/ out = toUpperCase r).
Proof.
  unfold getSimilarChar.
  destruct (getSimilarCharsMap self !! toLowerCase char) as [reps |] eqn:E; [| left; reflexivity].
  destruct reps as [| r0 reps0]; [left; reflexivity |].
  set (reps := r0 :: reps0) in *.
  unfold bind, Math_random.
  destruct (index reps (randomIndex (rng i) (length reps))) as [r |] eqn:Er; [| left; reflexivity].
  destruct r as [| c r]; [left; reflexivity |].
  right. exists reps, (c :: r). split; [reflexivity |].
  split; [| split; [discriminate |]].
  - apply index_lookup in Er. eapply list_elem_of_lookup_2, Er.
  - simpl. case_bool_decide; auto.
Qed.

Lemma getSimilarChar_length (char : jsstring) (i : nat) :
  (length (fst (getSimilarChar self char rng i)) <= length char + 1)%nat.
Proof.
  destruct (getSimilarChar_cases char i) as [-> | (reps & r & Hm & Hr & _ & Ho)]; [lia |].
  pose proof (tables_short self _ _ Hm) as Hs.
  unfold shortReplacements in Hs. rewrite Forall_forall in Hs.
  specialize (Hs r Hr). rewrite length_toLowerCase in Hs.
  destruct Ho as [-> | ->]; rewrite ?length_toUpperCase; exact Hs.
Qed.

Lemma getSimilarChar_nonempty (char : jsstring) (i : nat) :
  char <> [] -> fst (getSimilarChar self char rng i) <> [].
Proof.
  intros Hc.
  destruct (getSimilarChar_cases char i) as [-> | (reps & r & _ & _ & Hr & [-> | ->])];
    try assumption.
  destruct r; [congruence | discriminate].
Qed.

(** A turn on a non-empty array of non-empty elements makes an edit,
    removes at most one element, leaves no element empty and adds at most
    one code unit. *)
Lemma garbleTurn_spec (chars : list jsstring) (i : nat) :
  chars <> [] -> Forall nonempty chars ->
  let turn := fst (garbleTurn self chars rng i) in
  is_Some (snd turn) /\
  (length chars <= length (fst turn) + 1)%nat /\
  Forall nonempty (fst turn) /\
  (length (concat (fst turn)) <= length (concat chars) + 1)%nat.
Proof.
  intros Hc Hall. unfold garbleTurn, bind, Math_random.
  assert (Hlen : (0 < length chars)%nat) by (destruct chars; [congruence | simpl; lia]).
  pose proof (randomIndex_range (rng i) (length chars) (Hrng i) Hlen) as Hpos.
  set (pos := randomIndex (rng i) (length chars)) in *.
  destruct (index_Some chars pos Hpos) as (cur & -> & Hcur).
  assert (Hne : nonempty cur) by (rewrite Forall_forall in Hall; eapply Hall, list_elem_of_lookup_2, Hcur).
  destruct (Qltb (rng (S i)) (4 # 10)).
  - pose proof (getSimilarChar_length cur (S (S i))) as Hl.
    pose proof (getSimilarChar_nonempty cur (S (S i)) Hne) as Hn.
    destruct (getSimilarChar self cur rng (S (S i))) as [similar j]; simpl in *.
    split; [eauto |]. rewrite length_insert. split; [lia |].
    split; [apply Forall_insert; assumption |].
    pose proof (length_concat_insert chars _ _ similar Hcur). lia.
  - destruct (Qltb (rng (S i)) (7 # 10)).
    + destruct (pos <? Z.of_nat (length chars) - 1)%Z;
        [destruct (index chars (pos + 1)) as [next |] eqn:En |]; simpl;
        (split; [eauto |]); rewrite ?length_insert;
        try (split; [lia |]; split; [assumption | lia]).
      apply index_lookup in En.
      assert (Hnn : nonempty next) by (rewrite Forall_forall in Hall; eapply Hall, list_elem_of_lookup_2, En).
      split; [lia |]. split; [repeat apply Forall_insert; assumption |].
      pose proof (length_concat_insert chars _ _ next Hcur) as H1.
      assert (H2 : <[Z.to_nat pos := next]> chars !! S (Z.to_nat pos) = Some next).
      { rewrite list_lookup_insert_ne by lia.
        replace (S (Z.to_nat pos)) with (Z.to_nat (pos + 1)) by lia. exact En. }
      pose proof (length_concat_insert _ _ _ cur H2) as H3. lia.
    + simpl. split; [eauto |].
      split; [rewrite length_delete by eauto; lia |].
      split; [apply Forall_delete; assumption | ].
      pose proof (length_concat_delete chars (Z.to_nat pos)). lia.
Qed.

Lemma garbleLoop_spec :
  forall (n : nat) (chars : list jsstring) (i : nat),
    (n <= length chars)%nat -> Forall nonempty chars ->
    let done := fst (garbleLoop self n chars rng i) in
    length (snd done) = n /\
    (length chars <= length (fst done) + n)%nat /\
    Forall nonempty (fst done) /\
    (length (concat (fst done)) <= length (concat chars) + n)%nat.
Proof.
  induction n as [| n IH]; intros chars i Hn Hall; simpl.
  { repeat split; simpl; try lia; assumption. }
  destruct chars as [| c cs] eqn:Ec; [simpl in Hn; lia |]. rewrite <- Ec in *.
  assert (Hc : chars <> []) by (rewrite Ec; discriminate).
  unfold bind.
  pose proof (garbleTurn_spec chars i Hc Hall) as (Hs & Hl & Hne & Ht).
  destruct (garbleTurn self chars rng i) as [[chars1 e] j]; simpl in *.
  specialize (IH chars1 j ltac:(lia) Hne).
  destruct (garbleLoop self n chars1 rng j) as [[chars2 log] j2]; simpl in *.
  destruct IH as (IH1 & IH2 & IH3 & IH4).
  destruct Hs as [ed ->]. simpl.
  repeat split; try assumption; lia.
Qed.

Lemma getSimilarChar_similarTo (char : jsstring) (i : nat) :
  similarTo self char (fst (getSimilarChar self char rng i)).
Proof.
  unfold getSimilarChar, similarTo.
  destruct (getSimilarCharsMap self !! toLowerCase char) as [reps |]; [| reflexivity].
  destruct reps as [| r0 reps0]; [reflexivity |].
  set (reps := r0 :: reps0) in *.
  unfold bind, Math_random.
  destruct (@index (list N) reps (randomIndex (rng i) (@length (list N) reps)))
    as [r |] eqn:Er.
  - exists r. split; [eapply list_elem_of_lookup_2, index_lookup, Er |].
    destruct r; reflexivity.
  - pose proof (randomIndex_range (rng i) (length reps) (Hrng i)
                  ltac:(simpl; lia)) as Hidx.
    destruct (index_Some reps _ Hidx) as (r & Hi & _).
    unfold jsstring in *. rewrite Hi in Er. discriminate.
Qed.

(** A turn on a non-empty array makes one edit, and the array it leaves is
    the array it found with that edit applied. *)
Lemma garbleTurn_effect (chars : list jsstring) (i : nat) :
  chars <> [] ->
  let turn := fst (garbleTurn self chars rng i) in
  exists e, snd turn = Some e /\ validEdit self chars e /\ fst turn = applyEdit chars e.
Proof.
  intros Hc. unfold garbleTurn, bind, Math_random.
  assert (Hlen : (0 < length chars)%nat) by (destruct chars; [congruence | simpl; lia]).
  pose proof (randomIndex_range (rng i) (length chars) (Hrng i) Hlen) as Hpos.
  set (pos := randomIndex (rng i) (length chars)) in *.
  destruct (index_Some chars pos Hpos) as (cur & -> & Hcur).
  destruct (Qltb (rng (S i)) (4 # 10)).
  - pose proof (getSimilarChar_similarTo cur (S (S i))) as Hs.
    destruct (getSimilarChar self cur rng (S (S i))) as [similar j]; simpl in *.
    eexists. split; [reflexivity |]. split; [split; assumption | reflexivity].
  - destruct (Qltb (rng (S i)) (7 # 10)).
    + assert (Hp : (Z.to_nat pos < length chars)%nat) by lia.
      destruct (pos <? Z.of_nat (length chars) - 1)%Z eqn:El;
        [destruct (index chars (pos + 1)) as [next |] eqn:En |]; simpl;
        (eexists; split; [reflexivity |]; split; [exact Hp |]); simpl; rewrite Hcur.
      * apply index_lookup in En.
        replace (Z.to_nat (pos + 1)) with (S (Z.to_nat pos)) in En by lia.
        rewrite En. reflexivity.
      * unfold index in En. destruct (pos + 1 <? 0)%Z eqn:E0; [lia |].
        replace (Z.to_nat (pos + 1)) with (S (Z.to_nat pos)) in En by lia.
        rewrite En. reflexivity.
      * apply Z.ltb_ge in El.
        rewrite (lookup_ge_None_2 chars (S (Z.to_nat pos))) by lia. reflexivity.
    + simpl. eexists. split; [reflexivity |]. split; [simpl; lia | reflexivity].
Qed.

Lemma garbleLoop_effect :
  forall (n : nat) (chars : list jsstring) (i : nat),
    let done := fst (garbleLoop self n chars rng i) in
    editsFrom self chars (snd done) /\
    fst done = fold_left applyEdit (snd done) chars.
Proof.
  induction n as [| n IH]; intros chars i; simpl; [split; [exact I | reflexivity] |].
  destruct chars as [| c cs] eqn:Ec; [split; [exact I | reflexivity] |]. rewrite <- Ec in *.
  assert (Hc : chars <> []) by (rewrite Ec; discriminate).
  unfold bind.
  pose proof (garbleTurn_effect chars i Hc) as (e & He & Hv & Ha).
  destruct (garbleTurn self chars rng i) as [[chars1 e1] j]; simpl in *. subst e1 chars1.
  specialize (IH (applyEdit chars e) j).
  destruct (garbleLoop self n (applyEdit chars e) rng j) as [[chars2 log] j2]; simpl in *.
  destruct IH as [IH1 IH2]. split; [split; assumption | exact IH2].
Qed.

End GarbleInvariants.

Lemma numChanges_bound (self : DeafSimulator) (word : jsstring) :
  (1 <= level self <= 10)%Z -> (2 < length word)%nat ->
  (0 <= numChanges self word < Z.of_nat (length word))%Z.
Proof.
  intros Hl Hw. rewrite numChanges_Z.
  set (a := Z.of_nat (length word)). assert (3 <= a)%Z by (unfold a; lia).
  assert (- a + 1 <= - (a * level self) / 20 <= 0)%Z; [| lia].
  split.
  - apply Z.div_le_lower_bound; nia.
  - apply Z.div_le_upper_bound; nia.
Qed.

Lemma length_chars_of (word : jsstring) : length (chars_of word) = length word.
Proof. apply length_map. Qed.

Lemma concat_chars_of (word : jsstring) : concat (chars_of word) = word.
Proof. induction word as [| c w IH]; simpl; [| rewrite IH]; reflexivity. Qed.

Lemma chars_of_nonempty (word : jsstring) : Forall nonempty (chars_of word).
Proof. apply Forall_forall. intros s [c [-> _]]%list_elem_of_fmap. discriminate. Qed.

(** C7. [garbleWord] returns a token of at most 2 code units unchanged.  For
    a longer token and a level in [1,10] its loop makes exactly
    [ceil(length * level / 20)] edits, the output is at most that many code
    units longer than the token, and the output of a non-empty token is not
    empty.  The edits are those of the log: each is one the loop can make on
    the array that the edits before it left, and the output is the array
    [word.split('')] with the edits applied in order, joined. *)
Theorem garbleWord_edits_and_length
    (self : DeafSimulator) (word : jsstring) (rng : nat -> Q) (i : nat) :
  (1 <= level self <= 10)%Z ->
  unitInterval rng ->
  let out := fst (garbleWord self word rng i) in
  let edits := snd (fst (garbleTrace self word rng i)) in
  ((length word <= 2)%nat -> out = word) /\
  ((2 < length word)%nat ->
     Z.of_nat (length edits)
     = Qceiling (inject_Z (Z.of_nat (length word) * level self) / 20) /\
     (length out <= length word + length edits)%nat) /\
  (word <> [] -> out <> []) /\
  ((2 < length word)%nat ->
     editsFrom self (chars_of word) edits /\
     out = join [] (fold_left applyEdit edits (chars_of word))).
Proof.
  intros Hl Hr out edits. subst out edits.
  unfold garbleWord, garbleTrace, bind, ret.
  destruct (length word <=? 2)%nat eqn:E; simpl.
  { apply Nat.leb_le in E. repeat split; auto; intros; lia. }
  apply Nat.leb_gt in E.
  pose proof (numChanges_bound self word Hl E) as Hn.
  pose proof (garbleLoop_spec self rng Hr (Z.to_nat (numChanges self word))
                (chars_of word) i) as H.
  pose proof (garbleLoop_effect self rng Hr (Z.to_nat (numChanges self word))
                (chars_of word) i) as He.
  rewrite length_chars_of, concat_chars_of in H.
  specialize (H ltac:(lia) (chars_of_nonempty word)).
  destruct (garbleLoop self _ (chars_of word) rng i) as [[chars log] j]; simpl in *.
  destruct H as (H1 & H2 & H3 & H4). destruct He as [He1 He2].
  split; [intros; lia |]. split; [| split].
  - intros _. rewrite join_nil, H1. split; [| lia].
    rewrite Z2Nat.id by lia. unfold numChanges. apply Qceiling_comp.
    rewrite inject_Z_mult. unfold Qdiv. apply Qmult_assoc.
  - intros _. rewrite join_nil. apply concat_nonempty; [| assumption].
    intros ->. simpl in H2. lia.
  - intros _. split; [exact He1 |]. rewrite He2. reflexivity.
Qed.

Lemma garbleWord_edits_and_length_witness :
  let self := mkSimulator 10 it in
  let edits := snd (fst (garbleTrace self (js "pallone") (fun _ => (1 # 3)%Q) 0)) in
  Z.of_nat (length edits) = 4%Z.
Proof.
  intros self edits.
  assert (Hr : unitInterval (fun _ => (1 # 3)%Q))
    by (intros j; unfold Qle, Qlt; simpl; lia).
  destruct (garbleWord_edits_and_length self (js "pallone") (fun _ => (1 # 3)%Q) 0
              ltac:(simpl; lia) Hr) as (_ & H & _).
  destruct (H ltac:(simpl; lia)) as [H1 _].
  fold edits in H1. rewrite H1. reflexivity.
Defined.

(** ** Clusters in the Italian table *)

Lemma elem_of_insert_inv {A : Type} (l : list A) (i : nat) (x y : A) :
  y ∈ <[i := x]> l -> y = x \/ y ∈ l.
Proof.
  intros [j Hj]%list_elem_of_lookup.
  apply list_lookup_insert_Some in Hj as [(_ & -> & _) | (_ & Hj)]; [left; reflexivity |].
  right. eapply list_elem_of_lookup_2, Hj.
Qed.

(** The elements of the array after a turn were there before it, or were
    written by the replacement the turn logs; and a replacement is logged
    with the element it found. *)
Lemma garbleTurn_elements (self : DeafSimulator) (chars : list jsstring) (rng : nat -> Q) (i : nat) :
  let turn := fst (garbleTurn self chars rng i) in
  (forall c, c ∈ fst turn -> c ∈ chars \/ exists p old, snd turn = Some (Replace p old c)) /\
  (forall p old new, snd turn = Some (Replace p old new) -> old ∈ chars).
Proof.
  unfold garbleTurn, bind, Math_random.
  set (pos := randomIndex (rng i) (length chars)).
  destruct (index chars pos) as [cur |] eqn:Ecur; simpl; [| split; [auto | discriminate]].
  apply index_lookup in Ecur.
  assert (Hcur : cur ∈ chars) by (eapply list_elem_of_lookup_2, Ecur).
  destruct (Qltb (rng (S i)) (4 # 10)).
  - destruct (getSimilarChar self cur rng (S (S i))) as [similar j]; simpl. split.
    + intros c [-> | Hc]%elem_of_insert_inv; eauto.
    + intros p old new [= _ <- _]. exact Hcur.
  - destruct (Qltb (rng (S i)) (7 # 10)).
    + destruct (pos <? Z.of_nat (length chars) - 1)%Z;
        [destruct (index chars (pos + 1)) as [next |] eqn:En |]; simpl;
        (split; [| discriminate]); auto.
      apply index_lookup in En.
      intros c [-> | [-> | Hc]%elem_of_insert_inv]%elem_of_insert_inv; auto.
      left. eapply list_elem_of_lookup_2, En.
    + simpl. split; [| discriminate].
      intros c Hc%list_elem_of_delete_inv. auto.
Qed.

Lemma garbleLoop_clusters (self : DeafSimulator) (rng : nat -> Q) :
  forall (n : nat) (chars : list jsstring) (i : nat) (made : list jsstring),
    (forall c, c ∈ chars -> length c <> 1%nat -> c ∈ made) ->
    forall l1 p old new l2,
      snd (fst (garbleLoop self n chars rng i)) = l1 ++ Replace p old new :: l2 ->
      length old <> 1%nat ->
      old ∈ made \/ exists p' old', Replace p' old' old ∈ l1.
Proof.
  induction n as [| n IH]; intros chars i made Hmade l1 p old new l2 Hlog Hold; simpl in Hlog.
  { destruct l1; discriminate. }
  destruct chars as [| c0 cs] eqn:Ec; [destruct l1; discriminate |]. rewrite <- Ec in *.
  unfold bind in Hlog.
  pose proof (garbleTurn_elements self chars rng i) as [Hel Hrep].
  destruct (garbleTurn self chars rng i) as [[chars1 e] j]; simpl in *.
  specialize (IH chars1 j).
  destruct (garbleLoop self n chars1 rng j) as [[chars2 log] j2]; simpl in *.
  destruct e as [ed |]; simpl in Hlog.
  - destruct l1 as [| e1 l1]; simpl in Hlog; injection Hlog as -> Hlog.
    + left. apply Hmade; [| assumption]. eapply Hrep. reflexivity.
    + subst log.
      destruct (IH (match e1 with Replace _ _ s => s :: made | _ => made end)
                  ltac:(intros c Hc Hlen;
                        destruct (Hel c Hc) as [Hin | (p0 & old0 & [= ->])];
                        [destruct e1; try right; apply Hmade; assumption
                        | left])
                  l1 p old new l2 eq_refl Hold) as [Hin | (p' & old' & Hin)].
      * destruct e1 as [p1 old1 new1 | |]; try (left; assumption).
        apply elem_of_cons in Hin as [-> | Hin]; [| left; assumption].
        right. exists p1, old1. left.
      * right. exists p', old'. right. assumption.
  - eapply (IH made); [| exact Hlog | exact Hold].
    intros c Hc Hlen. destruct (Hel c Hc) as [Hin | (p0 & old0 & [=])]. auto.
Qed.

(** The array [chars] starts with one element per code unit of the token;
    whenever [getSimilarChar] is called on an element of two units or more,
    an earlier edit of the same call had written that element. *)
Lemma cluster_entries_only_after_replacement
    (self : DeafSimulator) (word : jsstring) (rng : nat -> Q) (i : nat)
    (l1 l2 : list Edit) (p : nat) (old new : jsstring) :
  snd (fst (garbleTrace self word rng i)) = l1 ++ Replace p old new :: l2 ->
  (1 < length old)%nat ->
  exists p' old', Replace p' old' old ∈ l1.
Proof.
  intros Hlog Hkey.
  unfold garbleTrace, bind, ret in Hlog.
  destruct (length word <=? 2)%nat; simpl in Hlog; [destruct l1; discriminate |].
  pose proof (garbleLoop_clusters self rng (Z.to_nat (numChanges self word))
                (chars_of word) i []) as H.
  destruct (garbleLoop self _ (chars_of word) rng i) as [[chars log] j]; simpl in *.
  destruct (H ltac:(intros c [u [-> _]]%list_elem_of_fmap Hc; simpl in Hc; lia)
              l1 p old new l2 Hlog ltac:(lia)) as [Hin | Hex]; [| exact Hex].
  inversion Hin.
Qed.

(** *** Forcing replacements *)












(** An edit forced onto the first [l] of the cluster of [pallone] in Italian
    mode looks up the entry of [l], whose replacements are [r] and [gl], and
    writes [gl], which the agnostic table does not have; under [clusterDraws]
    the output is [parrlone]. *)
Example pallone_cluster_position :
  fst (garbleTrace (mkSimulator 1 it) (js "pallone")
         (fun i => nth i [2 # 7; 0; 1 # 2]%Q 0%Q) 0)
  = (js "pagllone", [Replace 2 (js "l") (js "gl")])
  /\ italianMap !! js "l" = Some [js "r"; js "gl"]
  /\ italianMap !! js "ll" = Some [js "l"; js "rr"]
  /\ fst (garbleWord (mkSimulator 10 it) (js "pallone") (clusterDraws 2 7) 0)
     = js "parrlone"
  /\ fst (garbleWord (mkSimulator 10 agnostic) (js "pallone") (clusterDraws 2 7) 0)
     = js "paalone".
Proof. repeat split; vm_compute; reflexivity. Qed.

(** ** [simulate] *)

Lemma simulate_assemble (self : DeafSimulator) (input : jsstring) (rng : nat -> Q) (i : nat) :
  fst (simulate self input rng i)
  = assemble input (split input) (omap snd (fst (turnsOf self input rng i))).
Proof.
  unfold simulate, turnsOf, bind, ret.
  destruct (processWords self (split input) rng i) as [turns j]. reflexivity.
Qed.

(** C3 (what the code does). At level 10 in agnostic mode, when both tokens
    of [Hello world] are dropped and no placeholder is pushed, the degraded
    output is empty and the loss reported is 50, not 100: the empty output
    splits into one empty token, which is counted as kept. *)
Theorem all_dropped_reports_half
    (rng : nat -> Q) (i : nat) :
  let self := mkSimulator 10 agnostic in
  fst (turnsOf self (js "Hello world") rng i) = [(drop, None); (drop, None)] ->
  fst (simulate self (js "Hello world") rng i)
  = {| original := js "Hello world"; degraded := js ""; lossPercentage := 50 |}.
Proof.
  intros self H. rewrite simulate_assemble, H. reflexivity.
Qed.

Lemma all_dropped_reports_half_witness :
  lossPercentage (fst (simulate (mkSimulator 10 agnostic) (js "Hello world")
                         (fun _ => (99 # 100)%Q) 0)) = 50%Z.
Proof.
  rewrite (all_dropped_reports_half (fun _ => (99 # 100)%Q) 0); [reflexivity |].
  vm_compute. reflexivity.
Defined.

Lemma split_nonempty (s : jsstring) : (0 < length (split s))%nat.
Proof.
  induction s as [| c s IH]; simpl; [lia |].
  destruct (isSpace c); [destruct (startsWithSpace s); simpl; lia |].
  destruct (split s); simpl; lia.
Qed.

Lemma Math_round_loss (k : Z) (p : positive) :
  Math_round ((1 - inject_Z k / inject_Z (Zpos p)) * 100)
  = ((200 * (Zpos p - k) + Zpos p) / (2 * Zpos p))%Z.
Proof.
  unfold Math_round.
  transitivity (Qfloor ((200 * (Zpos p - k) + Zpos p) # (2 * p))); [| reflexivity].
  apply Qfloor_comp.
  unfold Qeq, Qmult, Qdiv, Qinv, Qminus, Qplus, Qopp, inject_Z; simpl. lia.
Qed.

Lemma lossOf_lt_100 (words : list jsstring) (degraded : jsstring) :
  (0 < length words)%nat ->
  (lossOf words degraded < 100)%Z <-> (length words < 200 * keptCount degraded)%nat.
Proof.
  intros Hn. unfold lossOf.
  destruct (0 <? length words)%nat eqn:E; [| apply Nat.ltb_ge in E; lia].
  destruct (Z.of_nat (length words)) as [| p | p] eqn:Ep; try lia.
  rewrite Math_round_loss.
  split; intros H.
  - assert (Hd : ~ (200 * Z.of_nat (keptCount degraded) <= Z.pos p)%Z); [| lia].
    intros Hle. apply (Z.lt_irrefl 100). eapply Z.le_lt_trans; [| exact H].
    apply Z.div_le_lower_bound; lia.
  - apply Z.div_lt_upper_bound; lia.
Qed.

Lemma keptCount_noPlaceholder (degraded : jsstring) :
  noPlaceholder degraded -> keptCount degraded = length (split degraded).
Proof.
  unfold noPlaceholder, keptCount. intros H.
  induction H as [| w ws Hw _ IH]; [reflexivity |].
  rewrite filter_cons_True by assumption. simpl. rewrite IH. reflexivity.
Qed.

Lemma keptCount_zero (degraded : jsstring) :
  keptCount degraded = 0%nat -> Forall (fun w => w = placeholder) (split degraded).
Proof.
  unfold keptCount. induction (split degraded) as [| w ws IH]; intros H; [constructor |].
  destruct (decide (w = placeholder)) as [-> | Hw].
  - rewrite filter_cons_False in H by (intros Hn; apply Hn; reflexivity). auto.
  - rewrite filter_cons_True in H by assumption. discriminate H.
Qed.

(** C10, amended. For an input of fewer than 200 tokens: when the degraded
    output has no placeholder token, the split of the degraded output gives
    at least one token counted as kept and the loss reported is below 100;
    and a loss of exactly 100 is reported only when every token of the
    degraded output is a placeholder. *)
Theorem loss_below_100_without_placeholder
    (self : DeafSimulator) (input : jsstring) (rng : nat -> Q) (i : nat) :
  let result := fst (simulate self input rng i) in
  (length (split input) < 200)%nat ->
  (noPlaceholder (degraded result) ->
     (1 <= keptCount (degraded result))%nat /\
     (0 <= lossPercentage result < 100)%Z) /\
  (lossPercentage result = 100%Z ->
     Forall (fun w => w = placeholder) (split (degraded result))).
Proof.
  intros result Hn. subst result. rewrite simulate_assemble.
  unfold assemble; simpl.
  set (d := trim _).
  pose proof (split_nonempty d) as Hd.
  pose proof (lossOf_lt_100 (split input) d (split_nonempty input)) as Hloss.
  split.
  - intros Hno. rewrite keptCount_noPlaceholder in * by assumption.
    split; [lia |]. split; [lia |].
    apply Z.max_lub_lt; [lia |]. apply Hloss. lia.
  - intros H100. apply keptCount_zero.
    destruct (keptCount d) as [| k]; [reflexivity |].
    assert (lossOf (split input) d < 100)%Z by (apply Hloss; lia). lia.
Qed.

(** The claim C10 as it is worded fails on a long input: of 201 tokens one
    is kept and 200 are dropped, the degraded output [a] has no placeholder,
    and the loss is [round(99.50...)], which is 100. *)
Lemma rounding_reports_100_without_placeholder :
  let result := fst (simulate (mkSimulator 5 en) manyWords keepFirstOnly 0) in
  length (split manyWords) = 201%nat /\
  degraded result = js "a" /\
  noPlaceholder (degraded result) /\
  lossPercentage result = 100%Z.
Proof.
  assert (E : fst (simulate (mkSimulator 5 en) manyWords keepFirstOnly 0)
              = mkDegradation manyWords (js "a") 100) by (vm_compute; reflexivity).
  cbv zeta. rewrite E. simpl.
  split; [vm_compute; reflexivity |]. split; [reflexivity |]. split; [| reflexivity].
  apply (bool_decide_unpack _). vm_compute. reflexivity.
Qed.

Lemma loss_below_100_without_placeholder_witness :
  (0 <= lossPercentage (fst (simulate (mkSimulator 5 en) (js "a b") keepFirstOnly 0%nat))
   < 100)%Z.
Proof.
  refine (proj2 (proj1 (loss_below_100_without_placeholder
                          (mkSimulator 5 en) (js "a b") keepFirstOnly 0 _) _)).
  - vm_compute. lia.
  - apply (bool_decide_unpack _). vm_compute. reflexivity.
Defined.

(** ** Empty and blank inputs *)

Lemma split_whitespaceOnly (s : jsstring) :
  whitespaceOnly s -> Forall (fun w => w = []) (split s).
Proof.
  induction 1 as [| c s Hc _ IH]; simpl; [repeat constructor |].
  rewrite Hc. destruct (startsWithSpace s); [assumption | constructor; auto].
Qed.

Lemma processWord_empty (self : DeafSimulator) (rng : nat -> Q) (i : nat) :
  let turn := fst (processWord self [] rng i) in
  fst turn <> partial -> snd turn <> Some placeholder ->
  snd turn = Some [] \/ snd turn = None.
Proof.
  unfold processWord, bind.
  destruct (decideAction self [] rng i) as [[] j]; simpl; auto; [congruence |].
  destruct (7 <=? level self)%Z; simpl; auto.
  destruct (Qltb _ _); simpl; auto. congruence.
Qed.

Lemma processWords_empty (self : DeafSimulator) (rng : nat -> Q) (words : list jsstring) :
  Forall (fun w => w = []) words ->
  forall i, quiet (fst (processWords self words rng i)) ->
  Forall (fun w => w = []) (omap snd (fst (processWords self words rng i))).
Proof.
  induction 1 as [| w words -> _ IH]; intros i; simpl; [constructor |].
  unfold bind. pose proof (processWord_empty self rng i) as Ht.
  destruct (processWord self [] rng i) as [turn j]; simpl in *.
  specialize (IH j).
  destruct (processWords self words rng j) as [turns j2]; simpl in *.
  intros Hq. inversion Hq as [| ? ? [H1 H2] Hq']; subst.
  specialize (IH Hq').
  destruct (Ht H1 H2) as [E | E]; rewrite E; simpl; [constructor |]; auto.
Qed.

Lemma join_blank (words : list jsstring) :
  Forall (fun w => w = []) words -> whitespaceOnly (join (js " ") words).
Proof.
  induction 1 as [| w words -> _ IH]; simpl; [constructor |].
  destruct words; [constructor |]. constructor; [reflexivity | exact IH].
Qed.

Lemma collapseSpaces_whitespaceOnly (s : jsstring) :
  whitespaceOnly s -> whitespaceOnly (collapseSpaces s).
Proof.
  induction 1 as [| c s Hc _ IH]; simpl; [constructor |].
  rewrite Hc. destruct (startsWithSpace s); [assumption |].
  constructor; [reflexivity | assumption].
Qed.

Lemma trim_whitespaceOnly (s : jsstring) : whitespaceOnly s -> trim s = [].
Proof.
  intros H. unfold trim.
  assert (E : trimStart s = []).
  { induction H as [| c s Hc _ IH]; simpl; [reflexivity |]. rewrite Hc. exact IH. }
  rewrite E. reflexivity.
Qed.

Lemma processWords_length (self : DeafSimulator) (rng : nat -> Q) (words : list jsstring) :
  forall i, length (fst (processWords self words rng i)) = length words.
Proof.
  induction words as [| w ws IH]; intros i; simpl; [reflexivity |].
  unfold bind. destruct (processWord self w rng i) as [t j].
  specialize (IH j). destruct (processWords self ws rng j) as [ts j2]. simpl in *. lia.
Qed.

(** An input of white space only never splits into zero tokens: the empty
    input is one empty token, and any other is two. *)
Lemma split_whitespaceOnly_shape (s : jsstring) :
  whitespaceOnly s ->
  split s = match s with [] => [[]] | _ :: _ => [[]; []] end.
Proof.
  induction 1 as [| c s Hc Hs IH]; [reflexivity |].
  simpl. rewrite Hc. destruct s as [| c' s']; [reflexivity |].
  inversion Hs as [| ? ? Hc' _]; subst. simpl startsWithSpace. rewrite Hc'. exact IH.
Qed.

(** C2 (what the code does). An input that is empty or of white space only
    is not split into zero tokens: [split] gives one empty token for the
    empty input and two for any other, and the loop of [simulate] takes a
    turn for each.  [original] is the input itself.  When no token is cut to
    a partial word and no placeholder is pushed, the degraded output is
    empty and the loss is 0 for the empty input but 50 for any other; when
    the empty token of the empty input is cut to a partial word the output
    is [undefined...], and when it is dropped with a placeholder the output
    is [[...]] and the loss 100. *)
Theorem blank_input_is_tokenised
    (self : DeafSimulator) (input : jsstring) (rng : nat -> Q) (i : nat) :
  whitespaceOnly input ->
  let result := fst (simulate self input rng i) in
  let turns := fst (turnsOf self input rng i) in
  split input = match input with [] => [[]] | _ :: _ => [[]; []] end /\
  length turns = length (split input) /\
  original result = input /\
  (quiet turns ->
     degraded result = [] /\
     lossPercentage result = match input with [] => 0 | _ :: _ => 50 end%Z) /\
  (input = [] -> fst (decideAction self [] rng i) = partial ->
     result = {| original := []; degraded := js "undefined..."; lossPercentage := 0 |}) /\
  (input = [] -> turns = [(drop, Some placeholder)] ->
     result = {| original := []; degraded := placeholder; lossPercentage := 100 |}).
Proof.
  intros Hws result turns. subst result turns.
  pose proof (split_whitespaceOnly_shape input Hws) as Hsplit.
  split; [exact Hsplit |].
  split; [apply processWords_length |].
  rewrite simulate_assemble.
  split; [reflexivity |]. split; [| split].
  - intros Hq.
    assert (Hd : trim (collapseSpaces (join (js " ")
                         (omap snd (fst (turnsOf self input rng i))))) = []).
    { apply trim_whitespaceOnly, collapseSpaces_whitespaceOnly, join_blank.
      apply processWords_empty; [apply split_whitespaceOnly |]; assumption. }
    unfold assemble; simpl. rewrite Hd. split; [reflexivity |].
    rewrite Hsplit. destruct input; reflexivity.
  - intros -> Hp. unfold turnsOf. simpl. unfold processWord, bind.
    destruct (decideAction self [] rng i) as [action j]. simpl in Hp. subst action.
    reflexivity.
  - intros -> Ht. rewrite Ht. reflexivity.
Qed.

Lemma blank_input_is_tokenised_witness :
  fst (simulate (mkSimulator 10 agnostic) (js "") (fun _ => (20 # 100)%Q) 0)
  = {| original := js ""; degraded := js "[...]"; lossPercentage := 100 |}.
Proof.
  refine (proj2 (proj2 (proj2 (proj2 (proj2
            (blank_input_is_tokenised (mkSimulator 10 agnostic) (js "")
               (fun _ => (20 # 100)%Q) 0 _))))) _ _).
  - constructor.
  - reflexivity.
  - vm_compute. reflexivity.
Defined.

(** What [split] makes of the empty input and of others, and what
    [simulate] returns for the empty input when its one empty token is cut
    to a partial word; and the input of one space with both its tokens
    kept. *)
Example split_empty : split (js "") = [js ""].
Proof. reflexivity. Qed.

Example split_blank : split (js "  ") = [js ""; js ""].
Proof. reflexivity. Qed.

Example split_words :
  split (js " Hello   big world") = [js ""; js "Hello"; js "big"; js "world"].
Proof. reflexivity. Qed.

Example blank_input_all_kept :
  fst (simulate (mkSimulator 1 en) (js " ") (fun _ => 0%Q) 0)
  = {| original := js " "; degraded := js ""; lossPercentage := 50 |}.
Proof. vm_compute. reflexivity. Qed.

Example empty_input_partial :
  fst (simulate (mkSimulator 10 agnostic) (js "") (fun _ => (14 # 100)%Q) 0)
  = {| original := js ""; degraded := js "undefined..."; lossPercentage := 0 |}.
Proof. vm_compute. reflexivity. Qed.

(** * Further properties of the engine and of its callers *)

(** ** The action selector, further *)

Lemma lossOf_range (words : list jsstring) (degraded : jsstring) :
  (lossOf words degraded <= 100)%Z.
Proof.
  unfold lossOf. destruct (0 <? length words)%nat eqn:E; [| lia].
  apply Nat.ltb_lt in E.
  destruct (Z.of_nat (length words)) as [| p | p] eqn:Ep; try lia.
  rewrite Math_round_loss.
  assert ((200 * (Z.pos p - Z.of_nat (keptCount degraded)) + Z.pos p) / (2 * Z.pos p) < 101)%Z; [| lia].
  apply Z.div_lt_upper_bound; lia.
Qed.

(** X1. The loss reported lies between 0 and 100, for every input, level,
    language and random source. *)
Theorem lossPercentage_range
    (self : DeafSimulator) (input : jsstring) (rng : nat -> Q) (i : nat) :
  (0 <= lossPercentage (fst (simulate self input rng i)) <= 100)%Z.
Proof.
  rewrite simulate_assemble. unfold assemble; simpl.
  pose proof (lossOf_range (split input)
                (trim (collapseSpaces (join (js " ")
                   (omap snd (fst (turnsOf self input rng i))))))).
  lia.
Qed.

Lemma Qltb_above (roll : Q) (t : Z) :
  (roll < 100)%Q -> (100 <= t)%Z -> Qltb roll (inject_Z t) = true.
Proof.
  intros Hr Ht. apply Qltb_lt. eapply Qlt_le_trans; [exact Hr |].
  change 100%Q with (inject_Z 100). rewrite <- Zle_Qle. exact Ht.
Qed.

(** A drop needs a roll at or above the partial threshold, and a partial
    word one at or above the garble threshold; a roll is below 100. *)
Lemma decideAction_needs_room
    (self : DeafSimulator) (word : jsstring) (rng : nat -> Q) (i : nat) :
  unitInterval rng ->
  let action := fst (decideAction self word rng i) in
  (action = drop -> (partialThreshold self word < 100)%Z) /\
  (action = partial -> (garbleThreshold self word < 100)%Z).
Proof.
  intros Hr. destruct (roll_range (rng i) (Hr i)) as [_ Hroll].
  unfold decideAction, bind, Math_random, ret.
  destruct (Z_lt_le_dec (garbleThreshold self word) 100) as [Hg | Hg].
  - destruct (Z_lt_le_dec (partialThreshold self word) 100) as [Hp | Hp]; [tauto |].
    rewrite (Qltb_above _ (partialThreshold self word) Hroll Hp).
    repeat (destruct (Qltb _ _)); simpl; split; intros H; try discriminate H; assumption.
  - rewrite (Qltb_above _ (garbleThreshold self word) Hroll Hg).
    destruct (Qltb _ _); simpl; split; intros H; discriminate H.
Qed.

(** X5. For draws in [0,1) and a level in [1,10]: no word is dropped at the
    levels 1, 3 and 4, and no important word at the levels 2 and 5, because
    the thresholds there add up to 100 or more; likewise no word is cut to a
    partial word at level 3, and no important word at level 1. *)
Theorem unreachable_actions
    (self : DeafSimulator) (word : jsstring) (rng : nat -> Q) (i : nat) :
  (1 <= level self <= 10)%Z ->
  unitInterval rng ->
  let action := fst (decideAction self word rng i) in
  (action = drop ->
     level self <> 1%Z /\ level self <> 3%Z /\ level self <> 4%Z /\
     (isImportant word = true -> level self <> 2%Z /\ level self <> 5%Z)) /\
  (action = partial ->
     level self <> 3%Z /\ (isImportant word = true -> level self <> 1%Z)).
Proof.
  intros Hl Hr action.
  destruct (decideAction_needs_room self word rng i Hr) as [Hd Hp].
  fold action in Hd, Hp. clearbody action.
  unfold partialThreshold, garbleThreshold, keepThreshold, importanceBonus in Hd, Hp.
  destruct self as [l lang]; simpl in Hl.
  split; intros Ha; [specialize (Hd Ha); clear Hp | specialize (Hp Ha); clear Hd];
    each_level Hl; destruct (isImportant word); vm_compute in Hd || vm_compute in Hp;
    try discriminate; repeat split; try discriminate; intros; try discriminate;
    repeat split; discriminate.
Qed.

Lemma keepThreshold_range (self : DeafSimulator) (word : jsstring) :
  (1 <= level self <= 10)%Z -> (8 <= keepThreshold self word <= 98)%Z.
Proof.
  intros Hl. unfold keepThreshold, importanceBonus.
  destruct self as [l lang]; simpl in Hl.
  each_level Hl; destruct (isImportant word); vm_compute; split; discriminate.
Qed.

(** X6. At every level in [1,10] the keep threshold lies between 8 and 98:
    a roll below 8 keeps any word, and a roll of 98 or more keeps none. *)
Theorem roll_extremes
    (self : DeafSimulator) (word : jsstring) (rng : nat -> Q) (i : nat) :
  (1 <= level self <= 10)%Z ->
  let action := fst (decideAction self word rng i) in
  ((rng i * 100 < 8)%Q -> action = keep) /\
  ((98 <= rng i * 100)%Q -> action <> keep).
Proof.
  intros Hl action. subst action.
  pose proof (keepThreshold_range self word Hl) as [H8 H98].
  unfold decideAction, bind, Math_random, ret.
  destruct (Qltb (rng i * 100) (inject_Z (keepThreshold self word))) eqn:E.
  - split; [reflexivity |]. intros Hhi. exfalso.
    apply Qltb_lt in E. apply (Qlt_irrefl (rng i * 100)).
    eapply Qlt_le_trans; [exact E |]. eapply Qle_trans; [| exact Hhi].
    change 98%Q with (inject_Z 98). rewrite <- Zle_Qle. exact H98.
  - split.
    + intros Hlo. exfalso.
      assert (Ht : Qltb (rng i * 100) (inject_Z (keepThreshold self word)) = true); [| congruence].
      apply Qltb_lt. eapply Qlt_le_trans; [exact Hlo |].
      change 8%Q with (inject_Z 8). rewrite <- Zle_Qle. exact H8.
    + intros _. repeat (destruct (Qltb _ _)); simpl; discriminate.
Qed.

Lemma processWords_Forall (self : DeafSimulator) (rng : nat -> Q)
    (P : Action * option jsstring -> Prop) :
  (forall w j, P (fst (processWord self w rng j))) ->
  forall words i, Forall P (fst (processWords self words rng i)).
Proof.
  intros HP. induction words as [| w ws IH]; intros i; simpl; [constructor |].
  unfold bind. pose proof (HP w i) as Ht.
  destruct (processWord self w rng i) as [t j].
  specialize (IH j). destruct (processWords self ws rng j) as [ts j2]. simpl in *.
  constructor; assumption.
Qed.

Lemma processWord_pushes (self : DeafSimulator) (word : jsstring) (rng : nat -> Q) (i : nat) :
  let turn := fst (processWord self word rng i) in
  fst turn = fst (decideAction self word rng i) /\
  (fst turn <> drop -> is_Some (snd turn)) /\
  (fst turn = keep -> snd turn = Some word) /\
  (fst turn = drop -> (level self < 7)%Z -> snd turn = None).
Proof.
  unfold processWord, bind.
  destruct (decideAction self word rng i) as [a j]; simpl.
  destruct a; simpl.
  - repeat split; eauto; discriminate.
  - destruct (garbleWord self word rng j); simpl. repeat split; eauto; discriminate.
  - destruct (partialWord self word rng j); simpl. repeat split; eauto; discriminate.
  - destruct (7 <=? level self)%Z eqn:E; simpl.
    + repeat split; try congruence; try discriminate. intros _ H. lia.
    + repeat split; try congruence; discriminate.
Qed.

Lemma partialThreshold_full (self : DeafSimulator) (word : jsstring) :
  level self = 1%Z \/ level self = 3%Z \/ level self = 4%Z ->
  (100 <= partialThreshold self word)%Z.
Proof.
  intros Hl. unfold partialThreshold, garbleThreshold, keepThreshold, importanceBonus.
  destruct self as [l lang]; simpl in Hl.
  destruct Hl as [-> | [-> | ->]]; destruct (isImportant word); vm_compute; discriminate.
Qed.

(** X7. For draws in [0,1), at the levels 1, 3 and 4 no turn of [simulate]
    drops its word: every word of the input pushes exactly one word onto
    [degradedWords]. *)
Theorem no_word_lost_at_levels_1_3_4
    (self : DeafSimulator) (input : jsstring) (rng : nat -> Q) (i : nat) :
  level self = 1%Z \/ level self = 3%Z \/ level self = 4%Z ->
  unitInterval rng ->
  let turns := fst (turnsOf self input rng i) in
  everyWordPushed turns /\
  length (omap snd turns) = length (split input).
Proof.
  intros Hl Hr turns.
  assert (Hall : everyWordPushed turns).
  { unfold everyWordPushed, turns, turnsOf.
    apply (processWords_Forall self rng (fun t => fst t <> drop /\ is_Some (snd t))).
    intros w j.
    pose proof (processWord_pushes self w rng j) as (Ha & Hp & _).
    pose proof (decideAction_needs_room self w rng j Hr) as [Hd _].
    pose proof (partialThreshold_full self w Hl) as Hfull.
    assert (Hnd : fst (fst (processWord self w rng j)) <> drop).
    { rewrite Ha. intros Heq. specialize (Hd Heq). lia. }
    split; [exact Hnd | exact (Hp Hnd)]. }
  split; [exact Hall |].
  rewrite <- (processWords_length self rng (split input) i).
  fold (turnsOf self input rng i). fold turns. clearbody turns.
  induction Hall as [| t ts [_ [w Hw]] _ IH]; [reflexivity |].
  simpl. rewrite Hw. simpl. f_equal. exact IH.
Qed.

(** ** Garbling, further *)

Lemma tables_lowercase (self : DeafSimulator) :
  map_Forall lowercaseReplacements (getSimilarCharsMap self)
  /\ map_Forall lowercaseKey (getSimilarCharsMap self).
Proof.
  unfold getSimilarCharsMap.
  destruct (_ =? _)%string; [| destruct (_ =? _)%string];
    split; apply (bool_decide_unpack _); vm_compute; reflexivity.
Qed.

Lemma agnostic_units : map_Forall unitReplacements agnosticMap.
Proof. apply (bool_decide_unpack _). vm_compute. reflexivity. Qed.

Section GarbleProperties.

Variable self : DeafSimulator.
Variable rng : nat -> Q.

(** A property of the elements that replacement keeps is kept by a turn and
    by the loop, and every replacement logged was made on an element that
    has it. *)
Variable P : jsstring -> Prop.
Hypothesis P_similar : forall c j, P c -> P (fst (getSimilarChar self c rng j)).

Lemma garbleTurn_keeps (chars : list jsstring) (i : nat) :
  Forall P chars ->
  let turn := fst (garbleTurn self chars rng i) in
  Forall P (fst turn) /\
  (forall e, snd turn = Some e -> fair self rng P e) /\
  length (fst turn) + length (List.filter isRemove (option_list (snd turn)))
  = length chars.
Proof.
  intros Hall. unfold garbleTurn, bind, Math_random.
  set (pos := randomIndex (rng i) (length chars)).
  destruct (index chars pos) as [cur |] eqn:Ecur; simpl;
    [| split; [assumption | split; [discriminate | lia]]].
  apply index_lookup in Ecur.
  assert (Hcur : P cur) by (rewrite Forall_forall in Hall; eapply Hall, list_elem_of_lookup_2, Ecur).
  destruct (Qltb (rng (S i)) (4 # 10)).
  - pose proof (P_similar cur (S (S i)) Hcur) as Hs.
    destruct (getSimilarChar self cur rng (S (S i))) as [similar j] eqn:Eg; simpl in *.
    split; [apply Forall_insert; assumption |]. split.
    + intros e [= <-]. split; [assumption |]. exists (S (S i)). rewrite Eg. reflexivity.
    + rewrite length_insert. lia.
  - destruct (Qltb (rng (S i)) (7 # 10)).
    + destruct (pos <? Z.of_nat (length chars) - 1)%Z;
        [destruct (index chars (pos + 1)) as [next |] eqn:En |]; simpl;
        rewrite ?length_insert;
        try (split; [assumption | split; [intros e [= <-]; exact Logic.I | lia]]).
      apply index_lookup in En.
      assert (Hnext : P next) by (rewrite Forall_forall in Hall; eapply Hall, list_elem_of_lookup_2, En).
      split; [repeat apply Forall_insert; assumption |].
      split; [intros e [= <-]; exact Logic.I | lia].
    + simpl. split; [apply Forall_delete; assumption |].
      split; [intros e [= <-]; exact Logic.I |].
      rewrite length_delete by eauto.
      apply lookup_lt_Some in Ecur. lia.
Qed.

Lemma garbleLoop_keeps :
  forall (n : nat) (chars : list jsstring) (i : nat),
    Forall P chars ->
    let done := fst (garbleLoop self n chars rng i) in
    Forall P (fst done) /\ Forall (fair self rng P) (snd done) /\
    length (fst done) + removals (snd done) = length chars.
Proof.
  unfold removals.
  induction n as [| n IH]; intros chars i Hall; simpl.
  { repeat split; auto. }
  destruct chars as [| c cs] eqn:Ec; [repeat split; auto |]. rewrite <- Ec in *.
  clear Ec c cs. unfold bind.
  pose proof (garbleTurn_keeps chars i Hall) as (H1 & H2 & H3).
  destruct (garbleTurn self chars rng i) as [[chars1 e] j]; simpl in *.
  specialize (IH chars1 j H1).
  destruct (garbleLoop self n chars1 rng j) as [[chars2 log] j2]; simpl in *.
  destruct IH as (IH1 & IH2 & IH3).
  split; [assumption |]. split.
  - apply Forall_app. split; [| assumption].
    destruct e as [e |]; simpl; [constructor; auto | constructor].
  - rewrite List.filter_app, length_app. lia.
Qed.

End GarbleProperties.

Lemma upperUnit_letter (u : N) : between 97 122 u = true -> isLetter (upperUnit u) = true.
Proof.
  intros H. unfold upperUnit. rewrite H. unfold isLetter, between in *.
  apply andb_true_iff in H as [H1 H2].
  apply N.leb_le in H1, H2. apply orb_true_iff. left.
  apply andb_true_iff. split; apply N.leb_le; lia.
Qed.

Lemma lowercase_letter (u : N) : between 97 122 u = true -> isLetter u = true.
Proof. intros H. unfold isLetter. rewrite H. apply orb_true_r. Qed.

Lemma garbleWord_units
    (self : DeafSimulator) (word : jsstring) (rng : nat -> Q) (i : nat) (u : N) :
  u ∈ fst (garbleWord self word rng i) -> u ∈ word \/ isLetter u = true.
Proof.
  unfold garbleWord, garbleTrace, bind, ret.
  destruct (length word <=? 2)%nat; simpl; [auto |].
  set (P := fun c : jsstring => Forall (fun v => v ∈ word \/ isLetter v = true) c).
  assert (HP : forall c j, P c -> P (fst (getSimilarChar self c rng j))).
  { intros c j Hc.
    destruct (getSimilarChar_cases self rng c j) as [-> | (reps & r & Hm & Hr & _ & Ho)];
      [exact Hc |].
    destruct (tables_lowercase self) as [Hlow _].
    pose proof (Hlow _ _ Hm) as Hreps. unfold lowercaseReplacements in Hreps.
    rewrite Forall_forall in Hreps. specialize (Hreps r Hr).
    destruct Ho as [-> | ->]; unfold P.
    - eapply Forall_impl; [exact Hreps |]. intros v Hv. right. apply lowercase_letter, Hv.
    - unfold toUpperCase. rewrite Forall_forall. intros v Hv.
      apply list_elem_of_In, in_map_iff in Hv as [x [<- Hx]].
      right. apply upperUnit_letter.
      rewrite Forall_forall in Hreps. apply Hreps, list_elem_of_In, Hx. }
  pose proof (garbleLoop_keeps self rng P HP (Z.to_nat (numChanges self word))
                (chars_of word) i) as H.
  destruct (garbleLoop self _ (chars_of word) rng i) as [[chars log] j]; simpl in *.
  destruct H as (H & _).
  { apply Forall_forall. intros c [v [-> Hv]]%list_elem_of_fmap.
    constructor; [left; exact Hv | constructor]. }
  rewrite join_nil. intros Hu.
  apply list_elem_of_In, in_concat in Hu as [c [Hc Hu]].
  rewrite Forall_forall in H. specialize (H c ltac:(apply list_elem_of_In; exact Hc)).
  unfold P in H. rewrite Forall_forall in H. apply H, list_elem_of_In, Hu.
Qed.

(** X8. Every code unit of a garbled word is a code unit of the word or an
    ASCII letter: garbling brings in nothing else, in any language. *)
Theorem garbleWord_alphabet
    (self : DeafSimulator) (word : jsstring) (rng : nat -> Q) (i : nat) :
  Forall (fun u => u ∈ word \/ isLetter u = true) (fst (garbleWord self word rng i)).
Proof. apply Forall_forall. intros u. apply garbleWord_units. Qed.


Lemma length_concat_units (chars : list jsstring) :
  Forall (fun c : jsstring => length c = 1%nat) chars -> length (concat chars) = length chars.
Proof.
  induction 1 as [| c cs Hc _ IH]; [reflexivity |].
  simpl. rewrite length_app, Hc, IH. reflexivity.
Qed.

(** X10. Outside the English and Italian modes every replacement is one
    code unit for one code unit, so the garbled word is shorter than the
    word by exactly the number of removals, and never longer. *)
Theorem garbleWord_agnostic_length
    (self : DeafSimulator) (word : jsstring) (rng : nat -> Q) (i : nat) :
  language self <> en -> language self <> it ->
  let out := fst (garbleWord self word rng i) in
  let edits := snd (fst (garbleTrace self word rng i)) in
  (length out + removals edits = length word)%nat.
Proof.
  intros Hen Hit out edits. subst out edits.
  assert (Hmap : getSimilarCharsMap self = agnosticMap).
  { unfold getSimilarCharsMap.
    destruct (String.eqb_spec (language self) en); [contradiction |].
    destruct (String.eqb_spec (language self) it); [contradiction | reflexivity]. }
  unfold garbleWord, garbleTrace, bind, ret.
  destruct (length word <=? 2)%nat; simpl; [unfold removals; simpl; lia |].
  set (P := fun c : jsstring => length c = 1%nat).
  assert (HP : forall c j, P c -> P (fst (getSimilarChar self c rng j))).
  { intros c j Hc.
    destruct (getSimilarChar_cases self rng c j) as [-> | (reps & r & Hm & Hr & Hne & Ho)];
      [exact Hc |].
    rewrite Hmap in Hm. pose proof (agnostic_units _ _ Hm) as Hreps.
    unfold unitReplacements in Hreps. rewrite Forall_forall in Hreps.
    specialize (Hreps r Hr).
    assert (length r = 1%nat) by (destruct r; [congruence | simpl in *; lia]).
    destruct Ho as [-> | ->]; unfold P; rewrite ?length_toUpperCase; assumption. }
  pose proof (garbleLoop_keeps self rng P HP (Z.to_nat (numChanges self word))
                (chars_of word) i) as H.
  destruct (garbleLoop self _ (chars_of word) rng i) as [[chars log] j]; simpl in *.
  destruct H as (H1 & _ & H3).
  { apply Forall_forall. intros c [v [-> Hv]]%list_elem_of_fmap. reflexivity. }
  rewrite join_nil, length_concat_units by exact H1.
  rewrite H3. apply length_chars_of.
Qed.

Lemma getSimilarChar_noLetter (self : DeafSimulator) (rng : nat -> Q) (u : N) (j : nat) :
  noLetter u -> getSimilarChar self [u] rng j = ([u], j).
Proof.
  intros [Hl Hk]. unfold getSimilarChar.
  destruct (getSimilarCharsMap self !! toLowerCase [u]) as [reps |] eqn:E; [| reflexivity].
  exfalso. destruct (tables_lowercase self) as [_ Hkey].
  pose proof (Hkey _ _ E) as Hlow. unfold lowercaseKey in Hlow. simpl in Hlow.
  inversion Hlow as [| ? ? Hu _]; subst. clear Hlow.
  unfold isLetter in Hl. apply orb_false_iff in Hl as [Hup Hlo].
  unfold lowerUnit in Hu. rewrite Hup in Hu.
  destruct (N.eqb_spec u 8490); [contradiction | congruence].
Qed.

(** X11. In a word without ASCII letters (and without the Kelvin sign, which
    lower-cases to [k]) no table has an entry for any character: every
    replacement leaves its element as it was, every code unit of the output
    is one of the word, and the length drops by the number of removals. *)
Theorem garbleWord_without_letters
    (self : DeafSimulator) (word : jsstring) (rng : nat -> Q) (i : nat) :
  Forall noLetter word ->
  let out := fst (garbleWord self word rng i) in
  let edits := snd (fst (garbleTrace self word rng i)) in
  Forall (fun e => match e with Replace _ old new => new = old | _ => True end) edits /\
  (forall u, u ∈ out -> u ∈ word) /\
  (length out + removals edits = length word)%nat.
Proof.
  intros Hword out edits. subst out edits.
  unfold garbleWord, garbleTrace, bind, ret.
  destruct (length word <=? 2)%nat; simpl;
    [split; [constructor | split; [auto | unfold removals; simpl; lia]] |].
  set (P := fun c : jsstring => exists u, c = [u] /\ u ∈ word).
  assert (Hsame : forall c j, P c -> fst (getSimilarChar self c rng j) = c).
  { intros c j (u & -> & Hu). rewrite Forall_forall in Hword.
    rewrite getSimilarChar_noLetter by (apply Hword, Hu). reflexivity. }
  assert (HP : forall c j, P c -> P (fst (getSimilarChar self c rng j))).
  { intros c j Hc. rewrite Hsame by exact Hc. exact Hc. }
  pose proof (garbleLoop_keeps self rng P HP (Z.to_nat (numChanges self word))
                (chars_of word) i) as H.
  destruct (garbleLoop self _ (chars_of word) rng i) as [[chars log] j]; simpl in *.
  destruct H as (H1 & H2 & H3).
  { apply Forall_forall. intros c [v [-> Hv]]%list_elem_of_fmap. exists v. auto. }
  split; [| split].
  - eapply Forall_impl; [exact H2 |]. intros [p old new | p | p]; simpl; auto.
    intros [Hold [j' ->]]. apply Hsame, Hold.
  - rewrite join_nil. intros u Hu.
    apply list_elem_of_In, in_concat in Hu as [c [Hc Hu]].
    rewrite Forall_forall in H1.
    destruct (H1 c ltac:(apply list_elem_of_In; exact Hc)) as (v & -> & Hv).
    apply list_elem_of_In in Hu. apply list_elem_of_singleton in Hu as ->. exact Hv.
  - rewrite join_nil, length_concat_units.
    + rewrite H3. apply length_chars_of.
    + eapply Forall_impl; [exact H1 |]. intros c (v & -> & _). reflexivity.
Qed.

(** X12. For levels in [1,10] the number of edits of [garbleWord] is at
    least 1 and at most half the length rounded up, and it does not
    decrease when the level or the length grows. *)
Theorem numChanges_growth
    (self1 self2 : DeafSimulator) (word1 word2 : jsstring) :
  (1 <= level self1)%Z -> (level self1 <= level self2)%Z -> (level self2 <= 10)%Z ->
  (0 < length word1 <= length word2)%nat ->
  (1 <= numChanges self1 word1)%Z /\
  (numChanges self1 word1 <= numChanges self2 word2)%Z /\
  (numChanges self2 word2 <= (Z.of_nat (length word2) + 1) / 2)%Z.
Proof.
  intros H1 H12 H2 Hw. rewrite !numChanges_Z.
  set (a1 := Z.of_nat (length word1)). set (a2 := Z.of_nat (length word2)).
  assert (Ha : (1 <= a1 <= a2)%Z) by (unfold a1, a2; lia).
  split; [| split].
  - assert (- (a1 * level self1) / 20 < 0)%Z; [| lia].
    apply Z.div_lt_upper_bound; nia.
  - assert (- (a2 * level self2) / 20 <= - (a1 * level self1) / 20)%Z; [| lia].
    apply Z.div_le_mono; nia.
  - assert (- ((a2 + 1) / 2) <= - (a2 * level self2) / 20)%Z; [| lia].
    apply Z.div_le_lower_bound; [lia |].
    assert (2 * ((a2 + 1) / 2) >= a2)%Z; [| nia].
    pose proof (Z.div_mod (a2 + 1) 2 ltac:(lia)).
    pose proof (Z.mod_pos_bound (a2 + 1) 2 ltac:(lia)). lia.
Qed.

(** Which of the two results of the last line of [getSimilarChar] it is. *)
Lemma getSimilarChar_case (self : DeafSimulator) (rng : nat -> Q) (char : jsstring) (i : nat) :
  let out := fst (getSimilarChar self char rng i) in
  out = char \/
  exists reps r,
    getSimilarCharsMap self !! toLowerCase char = Some reps /\ r ∈ reps /\
    ((char = toUpperCase char /\ out = toUpperCase r)
     \/ (char <> toUpperCase char /\ out = r)).
Proof.
  unfold getSimilarChar.
  destruct (getSimilarCharsMap self !! toLowerCase char) as [reps |] eqn:E; [| left; reflexivity].
  destruct reps as [| r0 reps0]; [left; reflexivity |].
  set (reps := r0 :: reps0) in *.
  unfold bind, Math_random.
  destruct (index reps (randomIndex (rng i) (length reps))) as [r |] eqn:Er; [| left; reflexivity].
  destruct r as [| c r]; [left; reflexivity |].
  right. exists reps, (c :: r). split; [reflexivity |].
  split; [apply index_lookup in Er; eapply list_elem_of_lookup_2, Er |].
  simpl. case_bool_decide; auto.
Qed.

Lemma upperUnit_upper (u : N) : between 65 90 u = true -> upperUnit u = u.
Proof.
  intros H. unfold upperUnit. unfold between in *.
  apply andb_true_iff in H as [H1 H2]. apply N.leb_le in H1, H2.
  destruct (97 <=? u)%N eqn:E; [apply N.leb_le in E; lia | reflexivity].
Qed.

Lemma upperUnit_lower (u : N) :
  between 97 122 u = true -> between 65 90 (upperUnit u) = true /\ upperUnit u <> u.
Proof.
  intros H. unfold upperUnit. rewrite H. unfold between in *.
  apply andb_true_iff in H as [H1 H2]. apply N.leb_le in H1, H2.
  split; [apply andb_true_iff; split; apply N.leb_le; lia | lia].
Qed.

Lemma toUpperCase_uppercase (w : jsstring) : uppercaseWord w -> toUpperCase w = w.
Proof.
  induction 1 as [| u w Hu _ IH]; [reflexivity |].
  simpl. rewrite upperUnit_upper by exact Hu. f_equal. exact IH.
Qed.

Lemma toUpperCase_lowercase (w : jsstring) :
  lowercaseWord w -> uppercaseWord (toUpperCase w) /\ (w <> [] -> w <> toUpperCase w).
Proof.
  intros H. split.
  - induction H as [| u w Hu _ IH]; [constructor |].
    simpl. constructor; [apply upperUnit_lower, Hu | exact IH].
  - destruct H as [| u w Hu _]; [congruence |]. intros _. simpl.
    intros [= Heq _]. destruct (upperUnit_lower u Hu) as [_ Hne]. congruence.
Qed.

(** X9. Garbling keeps the case of a word: a word of lower-case ASCII
    letters stays one, and so does a word of upper-case ASCII letters. *)
Theorem garbleWord_keeps_case
    (self : DeafSimulator) (word : jsstring) (rng : nat -> Q) (i : nat) :
  let out := fst (garbleWord self word rng i) in
  (lowercaseWord word -> lowercaseWord out) /\
  (uppercaseWord word -> uppercaseWord out).
Proof.
  intros out. subst out.
  unfold garbleWord, garbleTrace, bind, ret.
  destruct (length word <=? 2)%nat; simpl; [auto |].
  split; intros Hword.
  - set (P := fun c : jsstring => c <> [] /\ lowercaseWord c).
    assert (HP : forall c j, P c -> P (fst (getSimilarChar self c rng j))).
    { intros c j [Hne Hc].
      pose proof (getSimilarChar_nonempty self rng c j Hne) as Hout.
      split; [exact Hout |].
      destruct (getSimilarChar_case self rng c j) as [-> | (reps & r & Hm & Hr & Ho)];
        [exact Hc |].
      destruct (tables_lowercase self) as [Hlow _].
      pose proof (Hlow _ _ Hm) as Hreps. unfold lowercaseReplacements in Hreps.
      rewrite Forall_forall in Hreps. specialize (Hreps r Hr).
      destruct Ho as [[Heq _] | [_ ->]]; [| exact Hreps].
      exfalso. destruct (toUpperCase_lowercase c Hc) as [_ Hd]. exact (Hd Hne Heq). }
    pose proof (garbleLoop_keeps self rng P HP (Z.to_nat (numChanges self word))
                  (chars_of word) i) as H.
    destruct (garbleLoop self _ (chars_of word) rng i) as [[chars log] j]; simpl in *.
    destruct H as (H & _).
    { apply Forall_forall. intros c [v [-> Hv]]%list_elem_of_fmap.
      split; [discriminate |]. constructor; [| constructor].
      unfold lowercaseWord in Hword. rewrite Forall_forall in Hword. apply Hword, Hv. }
    rewrite join_nil. apply Forall_concat. eapply Forall_impl; [exact H |]. intros c [_ Hc]. exact Hc.
  - set (P := fun c : jsstring => uppercaseWord c).
    assert (HP : forall c j, P c -> P (fst (getSimilarChar self c rng j))).
    { intros c j Hc.
      destruct (getSimilarChar_case self rng c j) as [-> | (reps & r & Hm & Hr & Ho)];
        [exact Hc |].
      destruct (tables_lowercase self) as [Hlow _].
      pose proof (Hlow _ _ Hm) as Hreps. unfold lowercaseReplacements in Hreps.
      rewrite Forall_forall in Hreps. specialize (Hreps r Hr).
      destruct Ho as [[_ ->] | [Hne _]].
      - apply toUpperCase_lowercase, Hreps.
      - exfalso. apply Hne. symmetry. apply toUpperCase_uppercase, Hc. }
    pose proof (garbleLoop_keeps self rng P HP (Z.to_nat (numChanges self word))
                  (chars_of word) i) as H.
    destruct (garbleLoop self _ (chars_of word) rng i) as [[chars log] j]; simpl in *.
    destruct H as (H & _).
    { apply Forall_forall. intros c [v [-> Hv]]%list_elem_of_fmap.
      constructor; [| constructor].
      unfold uppercaseWord in Hword. rewrite Forall_forall in Hword. apply Hword, Hv. }
    rewrite join_nil. apply Forall_concat. exact H.
Qed.

(** ** Descriptions, construction and partial words *)

Lemma recognized_cases (l : Language) :
  recognized l <-> (String.eqb l en || String.eqb l it || String.eqb l agnostic) = true.
Proof.
  unfold recognized. rewrite !orb_true_iff, !String.eqb_eq. tauto.
Qed.

(** X14. For the three languages and the levels 1 to 10 the description of
    the level ends with the recognition rate that [decideAction] uses for
    that level, written as [(~N%)], and the language has a label. *)
Theorem getLevelDescription_quotes_rate (self : DeafSimulator) :
  (1 <= level self <= 10)%Z ->
  recognized (language self) ->
  exists d : string,
    getLevelDescription self = Some d /\
    endsWith d (String.append "(~" (String.append (decimal (keepRate self)) "%)")) = true /\
    is_Some (getLanguageLabel self).
Proof.
  intros Hl Hlang. destruct self as [l lang]; simpl in *.
  destruct Hlang as [-> | [-> | ->]]; each_level Hl;
    eexists; (split; [reflexivity |]); split; try reflexivity; eexists; reflexivity.
Qed.

(** X15. For a language that is none of the three, [getLevelDescription]
    gives no description and [getLanguageLabel] no label, while garbling
    goes on with the agnostic table. *)
Theorem getLevelDescription_unrecognized (self : DeafSimulator) :
  ~ recognized (language self) ->
  getLevelDescription self = None /\
  getLanguageLabel self = None /\
  getSimilarCharsMap self = agnosticMap.
Proof.
  intros Hn. rewrite recognized_cases in Hn.
  unfold getLevelDescription, descriptions, getLanguageLabel, getSimilarCharsMap.
  destruct (String.eqb (language self) en); [exfalso; apply Hn; reflexivity |].
  destruct (String.eqb (language self) it); [exfalso; apply Hn; reflexivity |].
  destruct (String.eqb (language self) agnostic); [exfalso; apply Hn; reflexivity |].
  repeat split.
Qed.

(** X16. Clamping is idempotent: building a simulator from the level that
    [getLevel] returns keeps that level, whatever the language, and with
    the language of [getLanguage] gives the same simulator back. *)
Theorem relanguage_keeps_level (config : DeafSimulatorConfig) (self : DeafSimulator) (lang : Language) :
  new_DeafSimulator config = Normal self ->
  new_DeafSimulator (mkConfig (getLevel self) lang)
    = Normal {| level := level self; language := lang |} /\
  new_DeafSimulator (mkConfig (getLevel self) (getLanguage self)) = Normal self.
Proof.
  unfold new_DeafSimulator, getLevel, getLanguage. intros [= <-]. simpl.
  split; f_equal; f_equal; lia.
Qed.

(** *** Partial words *)

(** X13. For a word of more than 3 code units and a level in [1,10], a
    partial word keeps [k] code units with [1 <= k < length], so at least one
    is lost; the output has [k + 3] code units; and a higher level never
    keeps more. *)
Theorem partialWord_keeps_less
    (self : DeafSimulator) (word : jsstring) (rng : nat -> Q) (i : nat) :
  (1 <= level self <= 10)%Z -> (3 < length word)%nat ->
  let k := Z.to_nat (keepLength self word) in
  (1 <= k < length word)%nat /\
  length (fst (partialWord self word rng i)) = (k + 3)%nat /\
  (forall other : DeafSimulator,
     (level self <= level other)%Z -> (keepLength other word <= keepLength self word)%Z).
Proof.
  intros Hl Hn k.
  assert (Hk : (1 <= keepLength self word < Z.of_nat (length word))%Z).
  { rewrite keepLength_Z. split; [lia |].
    apply Z.max_lub_lt; [lia |]. apply Z.div_lt_upper_bound; nia. }
  split; [unfold k; lia |]. split.
  - unfold partialWord, bind, Math_random, ret.
    destruct (length word <=? 3)%nat eqn:E; [apply Nat.leb_le in E; lia |].
    rewrite slice_start, slice_end by lia.
    destruct (Qltb (rng i) (6 # 10)); cbn [fst];
      rewrite length_app, ?length_take, ?length_drop;
      change (length ellipsis) with 3%nat; unfold k; lia.
  - intros other Ho. rewrite !keepLength_Z.
    apply Z.max_le_compat_l, Z.div_le_mono; nia.
Qed.

(** ** The assembled text *)

Lemma split_spaceFree (s : jsstring) : Forall spaceFree (split s).
Proof.
  induction s as [| c s IH]; simpl; [repeat constructor |].
  destruct (isSpace c) eqn:Ec.
  - destruct (startsWithSpace s); [assumption | constructor; [constructor | assumption]].
  - destruct (split s) as [| w ws]; [repeat constructor; assumption |].
    inversion IH; subst. constructor; [constructor; assumption | assumption].
Qed.

Lemma join_cons_cons (sep : jsstring) (c : N) (w : jsstring) (ws : list jsstring) :
  join sep ((c :: w) :: ws) = c :: join sep (w :: ws).
Proof. destruct ws; reflexivity. Qed.

Lemma split_not_nil (s : jsstring) : split s <> [].
Proof. pose proof (split_nonempty s). destruct (split s); [simpl in *; lia | discriminate]. Qed.

Lemma join_split (s : jsstring) : join (js " ") (split s) = collapseSpaces s.
Proof.
  induction s as [| c s IH]; simpl; [reflexivity |].
  destruct (isSpace c).
  - destruct (startsWithSpace s); [exact IH |].
    destruct (split s) as [| w ws] eqn:E; [exfalso; exact (split_not_nil s E) |].
    change (join (js " ") ([] :: w :: ws)) with (32%N :: join (js " ") (w :: ws)).
    rewrite IH. reflexivity.
  - destruct (split s) as [| w ws] eqn:E; [exfalso; exact (split_not_nil s E) |].
    rewrite join_cons_cons, IH. reflexivity.
Qed.

Lemma startsWithSpace_collapse (s : jsstring) :
  startsWithSpace (collapseSpaces s) = startsWithSpace s.
Proof.
  induction s as [| c s IH]; simpl; [reflexivity |].
  destruct (isSpace c) eqn:Ec; simpl; [| exact Ec].
  destruct (startsWithSpace s) eqn:Es; [rewrite IH; reflexivity | reflexivity].
Qed.

Lemma collapseSpaces_idempotent (s : jsstring) :
  collapseSpaces (collapseSpaces s) = collapseSpaces s.
Proof.
  induction s as [| c s IH]; simpl; [reflexivity |].
  destruct (isSpace c) eqn:Ec.
  - destruct (startsWithSpace s) eqn:Es; [exact IH |].
    simpl. rewrite startsWithSpace_collapse, Es, IH. reflexivity.
  - simpl. rewrite Ec, IH. reflexivity.
Qed.

Lemma collapseSpaces_tight (s : jsstring) : tight (collapseSpaces s).
Proof.
  induction s as [| c s IH]; simpl; [exact Logic.I |].
  destruct (isSpace c) eqn:Ec.
  - destruct (startsWithSpace s) eqn:Es; [exact IH |].
    simpl. split; [| exact IH]. intros _. rewrite startsWithSpace_collapse. auto.
  - simpl. split; [| exact IH]. congruence.
Qed.

Lemma tight_app_r (a b : jsstring) : tight (a ++ b) -> tight b.
Proof. induction a as [| c a IH]; simpl; [auto | intros [_ H]; auto]. Qed.

Lemma startsWithSpace_app (a b : jsstring) :
  a <> [] -> startsWithSpace (a ++ b) = startsWithSpace a.
Proof. destruct a; [congruence | reflexivity]. Qed.

Lemma tight_app_l (a b : jsstring) : tight (a ++ b) -> tight a.
Proof.
  induction a as [| c a IH]; simpl; [auto |]. intros [Hc H]. split; [| auto].
  intros Hs. destruct (Hc Hs) as [-> Hn]. split; [reflexivity |].
  destruct a; [reflexivity |]. exact Hn.
Qed.

Lemma trimStart_suffix (s : jsstring) :
  exists p, s = p ++ trimStart s /\ whitespaceOnly p /\ startsWithSpace (trimStart s) = false.
Proof.
  induction s as [| c s (p & Hp & Hw & Hs)]; simpl.
  - exists []. repeat split. constructor.
  - destruct (isSpace c) eqn:Ec.
    + exists (c :: p). simpl. rewrite <- Hp. repeat split; [constructor; assumption | assumption].
    + exists []. repeat split; [constructor | exact Ec].
Qed.

(** [trim s] is [s] without a prefix and a suffix of white space. *)
Lemma trim_middle (s : jsstring) :
  exists p q, s = p ++ trim s ++ q /\ whitespaceOnly p /\ whitespaceOnly q
              /\ startsWithSpace (trim s) = false
              /\ startsWithSpace (rev (trim s)) = false.
Proof.
  unfold trim.
  destruct (trimStart_suffix s) as (p & Hp & Hwp & Hs).
  destruct (trimStart_suffix (rev (trimStart s))) as (q & Hq & Hwq & Hs').
  set (t := trimStart s) in *. set (u := trimStart (rev t)) in *.
  assert (Ht : t = rev u ++ rev q).
  { rewrite <- rev_app_distr, <- Hq, rev_involutive. reflexivity. }
  exists p, (rev q). split; [rewrite <- Ht; exact Hp |].
  split; [exact Hwp |]. split; [apply Forall_rev; exact Hwq |].
  split; [| rewrite rev_involutive; exact Hs'].
  destruct (rev u) as [| c r] eqn:Eu; [reflexivity |].
  rewrite Ht in Hs. exact Hs.
Qed.

Lemma tight_spec (s : jsstring) :
  tight s ->
  forall s1 c s2, s = s1 ++ c :: s2 -> isSpace c = true ->
    c = 32%N /\ startsWithSpace s2 = false.
Proof.
  intros Ht s1 c s2 ->. apply tight_app_r in Ht. simpl in Ht. tauto.
Qed.

Lemma degraded_tight (self : DeafSimulator) (input : jsstring) (rng : nat -> Q) (i : nat) :
  let d := degraded (fst (simulate self input rng i)) in
  tight d /\ startsWithSpace d = false /\ startsWithSpace (rev d) = false.
Proof.
  rewrite simulate_assemble. unfold assemble; simpl.
  set (x := collapseSpaces _).
  destruct (trim_middle x) as (p & q & Hx & _ & _ & H1 & H2).
  split; [| auto].
  pose proof (collapseSpaces_tight (join (js " ") (omap snd (fst (turnsOf self input rng i))))) as Ht.
  fold x in Ht. rewrite Hx in Ht.
  apply tight_app_r, tight_app_l in Ht. exact Ht.
Qed.

(** X2. The degraded text neither starts nor ends with white space, and
    every white-space unit in it is a single U+0020 that is not followed by
    white space. *)
Theorem degraded_is_normalised
    (self : DeafSimulator) (input : jsstring) (rng : nat -> Q) (i : nat) :
  let d := degraded (fst (simulate self input rng i)) in
  startsWithSpace d = false /\
  startsWithSpace (rev d) = false /\
  (forall s1 c s2, d = s1 ++ c :: s2 -> isSpace c = true ->
     c = 32%N /\ startsWithSpace s2 = false).
Proof.
  intros d. destruct (degraded_tight self input rng i) as (Ht & H1 & H2).
  split; [exact H1 |]. split; [exact H2 |]. apply tight_spec, Ht.
Qed.

Lemma processWords_keep (self : DeafSimulator) (rng : nat -> Q) (words : list jsstring) :
  forall i,
    Forall (fun t => fst t = keep) (fst (processWords self words rng i)) ->
    omap snd (fst (processWords self words rng i)) = words.
Proof.
  induction words as [| w ws IH]; intros i; simpl; [reflexivity |].
  unfold bind. pose proof (processWord_pushes self w rng i) as (_ & _ & Hk & _).
  destruct (processWord self w rng i) as [t j]. specialize (IH j).
  destruct (processWords self ws rng j) as [ts j2]. simpl in *.
  intros H. inversion H as [| ? ? Ht Hts]; subst.
  rewrite (Hk Ht). simpl. f_equal. exact (IH Hts).
Qed.

(** X4. When every word is kept, the degraded text is the input with its
    runs of white space collapsed and its ends trimmed; for an input that is
    already in that form and has no word [[...]], it is the input itself
    and the loss is 0. *)
Theorem keep_all_returns_normalised_input
    (self : DeafSimulator) (input : jsstring) (rng : nat -> Q) (i : nat) :
  Forall (fun t => fst t = keep) (fst (turnsOf self input rng i)) ->
  let result := fst (simulate self input rng i) in
  degraded result = trim (collapseSpaces input) /\
  (trim (collapseSpaces input) = input -> noPlaceholder input ->
     degraded result = input /\ lossPercentage result = 0%Z).
Proof.
  intros Hk result. subst result. rewrite simulate_assemble.
  unfold turnsOf in *. rewrite (processWords_keep self rng (split input) i Hk).
  unfold assemble; simpl.
  rewrite join_split, collapseSpaces_idempotent.
  split; [reflexivity |]. intros -> Hno. split; [reflexivity |].
  unfold lossOf. rewrite keptCount_noPlaceholder by exact Hno.
  pose proof (split_nonempty input) as Hn.
  destruct (0 <? length (split input))%nat eqn:E; [| reflexivity].
  destruct (Z.of_nat (length (split input))) as [| p | p] eqn:Ep; try lia.
  rewrite Math_round_loss.
  replace (200 * (Z.pos p - Z.pos p) + Z.pos p)%Z with (Z.pos p) by lia.
  rewrite Z.div_small by lia. reflexivity.
Qed.

(** *** The tokens of the degraded output *)

Lemma nonemptyWords_blank (ws : list jsstring) :
  Forall (fun w => w = []) ws -> nonemptyWords ws = [].
Proof.
  unfold nonemptyWords. induction 1 as [| w ws -> _ IH]; [reflexivity |].
  rewrite filter_cons_False by (intros H; apply H; reflexivity). exact IH.
Qed.

Lemma split_cons (c : N) (s : jsstring) :
  split (c :: s)
  = if isSpace c then (if startsWithSpace s then split s else [] :: split s)
    else match split s with w :: ws => (c :: w) :: ws | [] => [[c]] end.
Proof. reflexivity. Qed.

Lemma split_space_head (s : jsstring) :
  startsWithSpace s = true -> exists rest, split s = [] :: rest.
Proof.
  induction s as [| c s IH]; [discriminate |].
  intros Hc. simpl in Hc. simpl. rewrite Hc.
  destruct (startsWithSpace s) eqn:Es; [apply IH; reflexivity | eauto].
Qed.

Lemma nonemptyWords_nil_cons (rest : list jsstring) :
  nonemptyWords ([] :: rest) = nonemptyWords rest.
Proof.
  unfold nonemptyWords. apply filter_cons_False. intros H. apply H. reflexivity.
Qed.

Lemma split_cons_space (c : N) (s : jsstring) :
  isSpace c = true ->
  exists rest, split (c :: s) = [] :: rest /\ nonemptyWords rest = nonemptyWords (split s).
Proof.
  intros Hc. simpl. rewrite Hc.
  destruct (startsWithSpace s) eqn:Es.
  - destruct (split_space_head s Es) as (rest & E). exists rest.
    rewrite E, nonemptyWords_nil_cons. auto.
  - eauto.
Qed.

Lemma split_prefix_spaces (p s : jsstring) :
  whitespaceOnly p -> nonemptyWords (split (p ++ s)) = nonemptyWords (split s).
Proof.
  induction 1 as [| c p Hc _ IH]; [reflexivity |].
  change ((c :: p) ++ s) with (c :: (p ++ s)).
  destruct (split_cons_space c (p ++ s) Hc) as (rest & -> & Hw).
  rewrite nonemptyWords_nil_cons, Hw. exact IH.
Qed.

Lemma split_cons_letter (c : N) (s : jsstring) :
  isSpace c = false ->
  exists w rest, split s = w :: rest /\ split (c :: s) = (c :: w) :: rest.
Proof.
  intros Hc. rewrite split_cons, Hc.
  destruct (split s) as [| w rest] eqn:E; [exfalso; exact (split_not_nil s E) |].
  eauto.
Qed.

Lemma nonemptyWords_cons (w : jsstring) (r1 r2 : list jsstring) :
  nonemptyWords r2 = nonemptyWords r1 -> nonemptyWords (w :: r2) = nonemptyWords (w :: r1).
Proof.
  unfold nonemptyWords. intros H. destruct (decide (w = [])) as [-> | Hw].
  - rewrite !filter_cons_False by (intros Hn; apply Hn; reflexivity). exact H.
  - rewrite !filter_cons_True by assumption. rewrite H. reflexivity.
Qed.

Lemma split_blank_shape (q : jsstring) :
  whitespaceOnly q -> exists r, split q = [] :: r /\ nonemptyWords r = [].
Proof.
  intros Hq. pose proof (split_whitespaceOnly q Hq) as Hb.
  destruct (split q) as [| w r] eqn:E; [exfalso; exact (split_not_nil q E) |].
  inversion Hb; subst. exists r. split; [reflexivity |]. apply nonemptyWords_blank. assumption.
Qed.

(** White space added at the end changes no piece but empty ones after the
    first. *)
Lemma split_suffix_shape (q : jsstring) :
  whitespaceOnly q ->
  forall s, exists w r1 r2,
    split s = w :: r1 /\ split (s ++ q) = w :: r2 /\
    nonemptyWords r2 = nonemptyWords r1.
Proof.
  intros Hq. induction s as [| c s (w & r1 & r2 & E1 & E2 & Hr)].
  - destruct (split_blank_shape q Hq) as (r & Er & Hn).
    exists [], [], r. simpl. auto.
  - change ((c :: s) ++ q) with (c :: (s ++ q)).
    destruct (isSpace c) eqn:Ec.
    + destruct s as [| c' s'].
      * destruct (split_blank_shape (c :: q) ltac:(constructor; assumption)) as (r & Er & Hn).
        exists [], [[]], r.
        split; [simpl; rewrite Ec; reflexivity |].
        split; [exact Er |]. rewrite Hn, nonemptyWords_nil_cons. reflexivity.
      * rewrite (split_cons c (c' :: s')), (split_cons c ((c' :: s') ++ q)), Ec.
        change (startsWithSpace ((c' :: s') ++ q)) with (isSpace c').
        change (startsWithSpace (c' :: s')) with (isSpace c').
        destruct (isSpace c').
        -- exists w, r1, r2. auto.
        -- exists [], (w :: r1), (w :: r2). rewrite E1, E2.
           split; [reflexivity |]. split; [reflexivity |]. apply nonemptyWords_cons, Hr.
    + exists (c :: w), r1, r2.
      rewrite (split_cons c s), (split_cons c (s ++ q)), Ec, E1, E2. auto.
Qed.

Lemma split_suffix_spaces (s q : jsstring) :
  whitespaceOnly q -> nonemptyWords (split (s ++ q)) = nonemptyWords (split s).
Proof.
  intros Hq. destruct (split_suffix_shape q Hq s) as (w & r1 & r2 & -> & -> & Hr).
  apply nonemptyWords_cons, Hr.
Qed.

Lemma split_collapseSpaces (s : jsstring) : split (collapseSpaces s) = split s.
Proof.
  induction s as [| c s IH]; simpl; [reflexivity |].
  destruct (isSpace c) eqn:Ec.
  - destruct (startsWithSpace s) eqn:Es; [exact IH |].
    simpl. rewrite startsWithSpace_collapse, Es, IH. reflexivity.
  - simpl. rewrite Ec, IH. reflexivity.
Qed.

Lemma split_spaceFree_prefix (w x h : jsstring) (t : list jsstring) :
  spaceFree w -> split x = h :: t -> split (w ++ x) = (w ++ h) :: t.
Proof.
  intros Hw Hx. induction Hw as [| c w Hc _ IH]; [exact Hx |].
  change ((c :: w) ++ x) with (c :: (w ++ x)).
  rewrite split_cons, Hc, IH. reflexivity.
Qed.

Lemma join_words (ws : list jsstring) :
  Forall spaceFree ws -> nonemptyWords (split (join (js " ") ws)) = nonemptyWords ws.
Proof.
  induction 1 as [| w ws Hw Hws IH]; [reflexivity |].
  destruct ws as [| w2 ws].
  - simpl. rewrite <- (app_nil_r w) at 1.
    rewrite (split_spaceFree_prefix w [] [] [] Hw eq_refl), app_nil_r. reflexivity.
  - change (join (js " ") (w :: w2 :: ws)) with (w ++ 32%N :: join (js " ") (w2 :: ws)).
    destruct (split_cons_space 32 (join (js " ") (w2 :: ws)) eq_refl) as (rest & E & Hr).
    rewrite (split_spaceFree_prefix w _ [] rest Hw E), app_nil_r.
    apply nonemptyWords_cons. rewrite Hr. exact IH.
Qed.

Lemma startsWithSpace_rev_tail (c : N) (s : jsstring) :
  s <> [] -> startsWithSpace (rev (c :: s)) = startsWithSpace (rev s).
Proof.
  intros Hs. simpl. apply startsWithSpace_app.
  intros H. apply Hs. rewrite <- (rev_involutive s), H. reflexivity.
Qed.

(** In a tight string that does not end in white space, every piece after
    the first is non-empty. *)
Lemma tight_pieces (s : jsstring) :
  tight s -> startsWithSpace (rev s) = false ->
  forall w rest, split s = w :: rest -> Forall nonempty rest.
Proof.
  induction s as [| c s IH]; intros Ht Hend w rest E.
  - injection E as <- <-. constructor.
  - destruct Ht as [Hc Ht].
    assert (Hend' : s <> [] -> startsWithSpace (rev s) = false).
    { intros Hs. rewrite <- (startsWithSpace_rev_tail c s Hs). exact Hend. }
    rewrite split_cons in E. destruct (isSpace c) eqn:Ec.
    + destruct (Hc eq_refl) as [-> Hs]. rewrite Hs in E. injection E as <- <-.
      destruct s as [| c' s']; [simpl in Hend; discriminate Hend |].
      simpl in Hs.
      destruct (split_cons_letter c' s' Hs) as (w' & r' & _ & E').
      rewrite E'. constructor; [discriminate |].
      eapply (IH Ht (Hend' ltac:(discriminate))). exact E'.
    + destruct (split s) as [| w' r'] eqn:E'; [exfalso; exact (split_not_nil s E') |].
      injection E as <- <-.
      destruct s as [| c' s']; [injection E' as <- <-; constructor |].
      eapply (IH Ht (Hend' ltac:(discriminate))). reflexivity.
Qed.

Lemma normal_form_pieces (d : jsstring) :
  tight d -> startsWithSpace d = false -> startsWithSpace (rev d) = false ->
  d <> [] -> Forall nonempty (split d).
Proof.
  intros Ht Hs He Hd. destruct d as [| c d]; [congruence |]. simpl in Hs.
  destruct (split_cons_letter c d Hs) as (w & rest & _ & E).
  rewrite E. constructor; [discriminate |].
  eapply tight_pieces; eassumption.
Qed.

Lemma nonemptyWords_all (ws : list jsstring) :
  Forall nonempty ws -> nonemptyWords ws = ws.
Proof.
  unfold nonemptyWords. induction 1 as [| w ws Hw _ IH]; [reflexivity |].
  rewrite filter_cons_True by exact Hw. rewrite IH. reflexivity.
Qed.

(** The tokens of [trim (collapseSpaces (join ' ' ws))] are the non-empty
    words among [ws], or one empty token when there is none. *)
Lemma assembled_tokens (ws : list jsstring) :
  Forall spaceFree ws ->
  split (trim (collapseSpaces (join (js " ") ws)))
  = match nonemptyWords ws with [] => [[]] | l => l end.
Proof.
  intros Hws. set (x := collapseSpaces (join (js " ") ws)).
  destruct (trim_middle x) as (p & q & Hx & Hp & Hq & H1 & H2).
  assert (Ht : tight (trim x)).
  { pose proof (collapseSpaces_tight (join (js " ") ws)) as Ht. fold x in Ht.
    rewrite Hx in Ht. apply tight_app_r, tight_app_l in Ht. exact Ht. }
  assert (Hw : nonemptyWords (split (trim x)) = nonemptyWords ws).
  { rewrite <- (join_words ws Hws), <- (split_collapseSpaces (join (js " ") ws)).
    fold x. rewrite Hx at 2.
    rewrite split_prefix_spaces, split_suffix_spaces by assumption. reflexivity. }
  destruct (trim x) as [| c d] eqn:Ed.
  - rewrite <- Hw. reflexivity.
  - pose proof (normal_form_pieces (c :: d) Ht H1 H2 ltac:(discriminate)) as Hne.
    rewrite <- Hw, nonemptyWords_all by exact Hne.
    destruct (split (c :: d)) eqn:E; [exfalso; exact (split_not_nil _ E) | reflexivity].
Qed.

Lemma letter_not_space (u : N) : isLetter u = true -> isSpace u = false.
Proof.
  unfold isLetter, isSpace, between. intros H.
  apply orb_true_iff in H as [H | H]; apply andb_true_iff in H as [H1 H2];
    apply N.leb_le in H1, H2;
    repeat (apply orb_false_iff; split);
    try (apply andb_false_iff; (left; apply N.leb_gt; lia) || (right; apply N.leb_gt; lia));
    apply N.eqb_neq; lia.
Qed.

Lemma garbleWord_spaceFree (self : DeafSimulator) (word : jsstring) (rng : nat -> Q) (i : nat) :
  spaceFree word -> spaceFree (fst (garbleWord self word rng i)).
Proof.
  intros Hw. apply Forall_forall. intros u Hu.
  destruct (garbleWord_units self word rng i u Hu) as [Hin | Hl].
  - unfold spaceFree in Hw. rewrite Forall_forall in Hw. apply Hw, Hin.
  - apply letter_not_space, Hl.
Qed.

Lemma ellipsis_spaceFree : spaceFree ellipsis.
Proof. repeat constructor. Qed.

Lemma slice_spaceFree (word : jsstring) (a : Z) (b : option Z) :
  spaceFree word -> spaceFree (slice word a b).
Proof. intros Hw. unfold slice. apply Forall_take, Forall_drop, Hw. Qed.

Lemma partialWord_spaceFree (self : DeafSimulator) (word : jsstring) (rng : nat -> Q) (i : nat) :
  spaceFree word -> spaceFree (fst (partialWord self word rng i)).
Proof.
  intros Hw. unfold partialWord, bind, Math_random, ret.
  destruct (length word <=? 3)%nat; cbn [fst].
  - apply Forall_app. split; [| exact ellipsis_spaceFree].
    destruct Hw as [| c w Hc _]; repeat constructor. exact Hc.
  - destruct (Qltb (rng i) (6 # 10)); cbn [fst]; apply Forall_app; split;
      try exact ellipsis_spaceFree; apply slice_spaceFree, Hw.
Qed.

Lemma processWord_spaceFree (self : DeafSimulator) (word : jsstring) (rng : nat -> Q) (i : nat) :
  spaceFree word ->
  forall w, snd (fst (processWord self word rng i)) = Some w -> spaceFree w.
Proof.
  intros Hw w. unfold processWord, bind.
  destruct (decideAction self word rng i) as [a j]; simpl.
  destruct a; simpl.
  - intros [= <-]. exact Hw.
  - pose proof (garbleWord_spaceFree self word rng j Hw).
    destruct (garbleWord self word rng j); simpl in *. intros [= <-]. assumption.
  - pose proof (partialWord_spaceFree self word rng j Hw).
    destruct (partialWord self word rng j); simpl in *. intros [= <-]. assumption.
  - destruct (7 <=? level self)%Z; simpl; [| discriminate].
    destruct (Qltb _ _); [| discriminate]. intros [= <-]. repeat constructor.
Qed.

Lemma processWords_spaceFree (self : DeafSimulator) (rng : nat -> Q) (words : list jsstring) :
  Forall spaceFree words ->
  forall i, Forall spaceFree (omap snd (fst (processWords self words rng i))).
Proof.
  induction 1 as [| w ws Hw _ IH]; intros i; simpl; [constructor |].
  unfold bind. pose proof (processWord_spaceFree self w rng i Hw) as Ht.
  destruct (processWord self w rng i) as [t j]. specialize (IH j).
  destruct (processWords self ws rng j) as [ts j2]. simpl in *.
  destruct (snd t) as [x |]; simpl; [constructor; auto | exact IH].
Qed.

Lemma length_omap_le {A B : Type} (f : A -> option B) (l : list A) :
  (length (omap f l) <= length l)%nat.
Proof.
  induction l as [| a l IH]; [reflexivity |].
  change (omap f (a :: l)) with (match f a with Some y => y :: omap f l | None => omap f l end).
  destruct (f a); simpl; lia.
Qed.

Lemma length_nonemptyWords_le (ws : list jsstring) :
  (length (nonemptyWords ws) <= length ws)%nat.
Proof. apply length_filter. Qed.

(** X3. The tokens of the degraded text are the non-empty words pushed onto
    [degradedWords], in order -- or one empty token when there is none.
    So at most as many tokens are counted as kept as the input has words,
    and [Math.max(0, ...)] never changes the rounded loss. *)
Theorem degraded_tokens_are_pushed_words
    (self : DeafSimulator) (input : jsstring) (rng : nat -> Q) (i : nat) :
  let result := fst (simulate self input rng i) in
  let pushed := omap snd (fst (turnsOf self input rng i)) in
  split (degraded result)
  = match nonemptyWords pushed with [] => [[]] | l => l end /\
  (keptCount (degraded result) <= length (split input))%nat /\
  lossPercentage result = lossOf (split input) (degraded result).
Proof.
  intros result pushed. subst result. rewrite simulate_assemble.
  unfold assemble; simpl. fold pushed.
  assert (Hsf : Forall spaceFree pushed)
    by (apply processWords_spaceFree, split_spaceFree).
  pose proof (assembled_tokens pushed Hsf) as Htok.
  set (d := trim _) in *.
  assert (Hk : (keptCount d <= length (split input))%nat).
  { unfold keptCount. etransitivity; [apply length_filter |]. rewrite Htok.
    pose proof (length_nonemptyWords_le pushed).
    pose proof (length_omap_le snd (fst (turnsOf self input rng i))) as Hl.
    fold pushed in Hl. unfold turnsOf in Hl. rewrite processWords_length in Hl.
    pose proof (split_nonempty input).
    destruct (nonemptyWords pushed); simpl in *; lia. }
  split; [exact Htok |]. split; [exact Hk |].
  apply Z.max_r. unfold lossOf.
  destruct (0 <? length (split input))%nat; [| lia].
  destruct (Z.of_nat (length (split input))) as [| p | p] eqn:Ep;
    [pose proof (split_nonempty input); lia | | lia].
  rewrite Math_round_loss. apply Z.div_pos; lia.
Qed.

(** ** [escapeJs] *)

Lemma replaceAll_app (c : N) (by_ a b : jsstring) :
  replaceAll c by_ (a ++ b) = replaceAll c by_ a ++ replaceAll c by_ b.
Proof.
  induction a as [| x a IH]; simpl; [reflexivity |].
  destruct (x =? c)%N; rewrite IH; [rewrite app_assoc |]; reflexivity.
Qed.

Lemma escapeJs_cons (x : N) (s : jsstring) :
  escapeJs (x :: s) = escapeUnit x ++ escapeJs s.
Proof.
  unfold escapeJs, escapeUnit.
  change (x :: s) with ([x] ++ s). rewrite !replaceAll_app.
  f_equal. simpl.
  destruct (N.eqb_spec x 92) as [-> | H92]; [reflexivity |]. simpl.
  destruct (N.eqb_spec x 39) as [-> | H39]; [reflexivity |]. simpl.
  destruct (N.eqb_spec x 34) as [-> | H34]; [reflexivity |]. simpl.
  destruct (N.eqb_spec x 10) as [-> | H10]; [reflexivity |]. simpl.
  destruct (N.eqb_spec x 13) as [-> | H13]; reflexivity.
Qed.

Lemma escapeUnit_safe (x u : N) :
  u ∈ escapeUnit x -> u <> 10%N /\ u <> 13%N.
Proof.
  unfold escapeUnit.
  destruct (N.eqb_spec x 92); [| destruct (N.eqb_spec x 39);
    [| destruct (N.eqb_spec x 34); [| destruct (N.eqb_spec x 10);
    [| destruct (N.eqb_spec x 13)]]]];
    intros H; repeat (apply elem_of_cons in H as [-> | H]); try (split; congruence);
    try (split; discriminate); inversion H.
Qed.

(** X17. The five replacements of [escapeJs] amount to one pass that maps
    each code unit on its own ([escapeUnit]): so escaping distributes over
    concatenation, the output has no line feed and no carriage return, and
    it is at most twice as long as the input. *)
Theorem escapeJs_single_pass (a b : jsstring) :
  escapeJs a = flat_map escapeUnit a /\
  escapeJs (a ++ b) = escapeJs a ++ escapeJs b /\
  (forall u, u ∈ escapeJs a -> u <> 10%N /\ u <> 13%N) /\
  (length a <= length (escapeJs a) <= 2 * length a)%nat.
Proof.
  assert (Hflat : forall s, escapeJs s = flat_map escapeUnit s).
  { induction s as [| x s IH]; [reflexivity |].
    rewrite escapeJs_cons, IH. reflexivity. }
  split; [apply Hflat |]. split; [| split].
  - rewrite !Hflat. apply flat_map_app.
  - rewrite Hflat. intros u Hu.
    apply list_elem_of_In, in_flat_map in Hu as [x [_ Hx]].
    eapply escapeUnit_safe, list_elem_of_In, Hx.
  - rewrite Hflat. induction a as [| x a IH]; simpl; [lia |].
    rewrite length_app.
    assert (1 <= length (escapeUnit x) <= 2)%nat; [| lia].
    unfold escapeUnit. repeat (destruct (_ =? _)%N); simpl; lia.
Qed.

Lemma escapeUnit_prefix_free (x y : N) (r1 r2 : jsstring) :
  escapeUnit x ++ r1 = escapeUnit y ++ r2 -> x = y /\ r1 = r2.
Proof.
  unfold escapeUnit.
  destruct (N.eqb_spec x 92); [| destruct (N.eqb_spec x 39);
    [| destruct (N.eqb_spec x 34); [| destruct (N.eqb_spec x 10);
    [| destruct (N.eqb_spec x 13)]]]];
  (destruct (N.eqb_spec y 92); [| destruct (N.eqb_spec y 39);
    [| destruct (N.eqb_spec y 34); [| destruct (N.eqb_spec y 10);
    [| destruct (N.eqb_spec y 13)]]]]);
  simpl; intros H; injection H; intros; subst; try (split; congruence);
  try discriminate; try congruence.
Qed.

(** X18. [escapeJs] loses nothing: two strings with the same escaped form
    are equal. *)
Theorem escapeJs_injective (a b : jsstring) :
  escapeJs a = escapeJs b -> a = b.
Proof.
  revert b. induction a as [| x a IH]; intros [| y b]; rewrite ?escapeJs_cons.
  - reflexivity.
  - intros H. exfalso. change (escapeJs []) with (@nil N) in H.
    unfold escapeUnit in H. repeat (destruct (_ =? _)%N); discriminate.
  - intros H. exfalso. change (escapeJs []) with (@nil N) in H.
    unfold escapeUnit in H. repeat (destruct (_ =? _)%N); discriminate.
  - intros H. apply escapeUnit_prefix_free in H as [-> H]. f_equal. apply IH, H.
Qed.

(** ** Sessions *)

Lemma construct_spec (l : Z) (lang : Language) :
  construct l lang = {| level := Z.max 1 (Z.min 10 l); language := lang |}.
Proof. reflexivity. Qed.

Lemma clamp_range (l : Z) : (1 <= Z.max 1 (Z.min 10 l) <= 10)%Z.
Proof. lia. Qed.

Lemma clamp_fixed (l : Z) : (1 <= l <= 10)%Z -> Z.max 1 (Z.min 10 l) = l.
Proof. lia. Qed.

Lemma getOrCreateSession_spec (config : WebConfig) (sessions : gmap jsstring Session)
    (id : jsstring) :
  map_Forall (fun _ s => coherent s) sessions ->
  let (sessions1, session) := getOrCreateSession config sessions id in
  sessions1 !! id = Some session /\
  coherent session /\
  (forall other, other <> id -> sessions1 !! other = sessions !! other) /\
  (forall old, sessions !! id = Some old -> session = old /\ sessions1 = sessions).
Proof.
  intros Hall. unfold getOrCreateSession.
  destruct (sessions !! id) as [s |] eqn:E.
  - split; [exact E |]. split; [exact (Hall _ _ E) |].
    split; [reflexivity |]. intros old [= <-]. auto.
  - split; [apply lookup_insert_eq |]. split.
    + unfold coherent; cbn [simulator session_language].
      rewrite construct_spec; simpl.
      split; [reflexivity | apply clamp_range].
    + split; [| discriminate]. intros other Hne. apply lookup_insert_ne. congruence.
Qed.

(** X20. When every stored session is coherent, the chat handler degrades
    the message with the level of the request, clamped, and with its
    language, whether or not it had to rebuild the simulator; the session
    gains exactly one user message, holding the degraded text; every
    session is coherent again and the other sessions are untouched. *)
Theorem chat_uses_requested_settings
    (config : WebConfig) (sessions : gmap jsstring Session) (body : ChatBody)
    (rng : nat -> Q) (i : nat) :
  map_Forall (fun _ s => coherent s) sessions ->
  let requested := {| level := Z.max 1 (Z.min 10 (body_level body));
                      language := body_language body |} in
  let out := fst (chatBegin config sessions body rng i) in
  snd out = fst (simulate requested (message body) rng i) /\
  map_Forall (fun _ s => coherent s) (fst out) /\
  (exists before,
     fst (getOrCreateSession config sessions (sessionId body)) !! sessionId body
       = Some before /\
     fst out !! sessionId body
       = Some {| simulator := requested;
                 client := client before;
                 history := history before ++ [mkMessage user (degraded (snd out))];
                 session_language := body_language body |}) /\
  (forall other, other <> sessionId body -> fst out !! other = sessions !! other).
Proof.
  intros Hall requested out. subst out. unfold chatBegin.
  pose proof (getOrCreateSession_spec config sessions (sessionId body) Hall) as Hg.
  destruct (getOrCreateSession config sessions (sessionId body)) as [sessions1 session].
  destruct Hg as (Hl & [Hc1 Hc2] & Ho & _).
  set (changed := (_ || _)%bool).
  set (session1 := if changed then _ else session).
  assert (Hs1 : simulator session1 = requested /\ session_language session1 = body_language body
                /\ client session1 = client session /\ history session1 = history session).
  { unfold session1. destruct changed eqn:Ec;
      cbn [simulator session_language client history].
    - rewrite construct_spec. auto.
    - unfold changed in Ec. apply orb_false_iff in Ec as [E1 E2].
      apply negb_false_iff in E1, E2. apply Z.eqb_eq in E1. apply String.eqb_eq in E2.
      unfold requested. rewrite <- E1, clamp_fixed by exact Hc2.
      rewrite <- E2, Hc1. destruct (simulator session); auto. }
  destruct Hs1 as (Hsim & Hlang & Hcl & Hh).
  unfold bind, ret. rewrite Hsim.
  destruct (simulate requested (message body) rng i) as [result j]. simpl.
  split; [reflexivity |]. split; [| split].
  - apply map_Forall_insert_2.
    + unfold coherent; simpl. rewrite Hlang. split; [reflexivity | apply clamp_range].
    + intros k s Hk. destruct (decide (k = sessionId body)) as [-> | Hne].
      * rewrite Hl in Hk. injection Hk as <-. split; assumption.
      * rewrite Ho in Hk by exact Hne. exact (Hall _ _ Hk).
  - exists session. split; [exact Hl |].
    rewrite lookup_insert_eq, Hlang, Hcl, Hh. reflexivity.
  - intros other Hne. rewrite lookup_insert_ne by congruence. apply Ho, Hne.
Qed.

(** X19. A session once created is returned as it is by every later call,
    whatever the configuration has become, and the map is left alone; a
    call never touches the session of another id. *)
Theorem getOrCreateSession_idempotent
    (config config' : WebConfig) (sessions : gmap jsstring Session) (id : jsstring) :
  let first := getOrCreateSession config sessions id in
  getOrCreateSession config' (fst first) id = first /\
  fst first !! id = Some (snd first) /\
  (forall other, other <> id -> fst first !! other = sessions !! other).
Proof.
  unfold getOrCreateSession.
  destruct (sessions !! id) as [s |] eqn:E; cbn [fst snd].
  - rewrite E. repeat split; auto.
  - rewrite lookup_insert_eq. split; [reflexivity |]. split; [reflexivity |].
    intros other Hne. apply lookup_insert_ne. congruence.
Qed.

(** ** Instances of the further properties *)

Lemma keep_all_returns_normalised_input_witness :
  degraded (fst (simulate (mkSimulator 1 agnostic) (js "The weather is nice today")
                   (fun _ => 0%Q) 0)) = js "The weather is nice today" /\
  lossPercentage (fst (simulate (mkSimulator 1 agnostic) (js "The weather is nice today")
                         (fun _ => 0%Q) 0)) = 0%Z.
Proof.
  refine (proj2 (keep_all_returns_normalised_input (mkSimulator 1 agnostic)
                   (js "The weather is nice today") (fun _ => 0%Q) 0 _) _ _).
  - replace (fst (turnsOf (mkSimulator 1 agnostic) (js "The weather is nice today")
                    (fun _ => 0%Q) 0))
      with [(keep, Some (js "The")); (keep, Some (js "weather")); (keep, Some (js "is"));
            (keep, Some (js "nice")); (keep, Some (js "today"))]
      by (vm_compute; reflexivity).
    repeat constructor.
  - vm_compute. reflexivity.
  - apply (bool_decide_unpack _). vm_compute. reflexivity.
Defined.

Lemma unreachable_actions_witness :
  fst (decideAction (mkSimulator 3 en) (js "hello") (fun _ => (99 # 100)%Q) 0) <> drop.
Proof.
  intros H.
  assert (Hr : unitInterval (fun _ => (99 # 100)%Q))
    by (intros j; unfold Qle, Qlt; simpl; lia).
  destruct (unreachable_actions (mkSimulator 3 en) (js "hello") (fun _ => (99 # 100)%Q) 0
              ltac:(simpl; lia) Hr) as [Hd _].
  destruct (Hd H) as (_ & H3 & _). apply H3. reflexivity.
Defined.

Lemma roll_extremes_witness :
  fst (decideAction (mkSimulator 1 en) (js "Hello") (fun _ => (99 # 100)%Q) 0) <> keep.
Proof.
  refine (proj2 (roll_extremes (mkSimulator 1 en) (js "Hello") (fun _ => (99 # 100)%Q) 0 _) _).
  - simpl. lia.
  - unfold Qle. simpl. lia.
Defined.

Lemma no_word_lost_at_levels_1_3_4_witness :
  length (omap snd (fst (turnsOf (mkSimulator 3 en) (js "a b c")
                           (fun _ => (99 # 100)%Q) 0))) = 3%nat.
Proof.
  assert (Hr : unitInterval (fun _ => (99 # 100)%Q))
    by (intros j; unfold Qle, Qlt; simpl; lia).
  rewrite (proj2 (no_word_lost_at_levels_1_3_4 (mkSimulator 3 en) (js "a b c")
                   (fun _ => (99 # 100)%Q) 0 (or_intror (or_introl eq_refl)) Hr)).
  reflexivity.
Defined.

Lemma garbleWord_agnostic_length_witness :
  (length (fst (garbleWord (mkSimulator 10 agnostic) (js "pallone") (fun _ => (8 # 10)%Q) 0))
   + removals (snd (fst (garbleTrace (mkSimulator 10 agnostic) (js "pallone")
                           (fun _ => (8 # 10)%Q) 0)))
   = 7)%nat.
Proof.
  refine (garbleWord_agnostic_length (mkSimulator 10 agnostic) (js "pallone")
            (fun _ => (8 # 10)%Q) 0 _ _); discriminate.
Defined.

Lemma garbleWord_without_letters_witness :
  (length (fst (garbleWord (mkSimulator 9 en) (js "2024!") (fun _ => (1 # 3)%Q) 0))
   + removals (snd (fst (garbleTrace (mkSimulator 9 en) (js "2024!") (fun _ => (1 # 3)%Q) 0)))
   = 5)%nat.
Proof.
  refine (proj2 (proj2 (garbleWord_without_letters (mkSimulator 9 en) (js "2024!")
                          (fun _ => (1 # 3)%Q) 0 _))).
  repeat (constructor; try (split; [reflexivity | discriminate])).
Defined.

Lemma numChanges_growth_witness :
  (1 <= numChanges (mkSimulator 3 en) (js "abc")
   /\ numChanges (mkSimulator 3 en) (js "abc") <= numChanges (mkSimulator 7 en) (js "pallone")
   /\ numChanges (mkSimulator 7 en) (js "pallone") <= 4)%Z.
Proof.
  refine (numChanges_growth (mkSimulator 3 en) (mkSimulator 7 en) (js "abc") (js "pallone")
            _ _ _ _); simpl; lia.
Defined.

Lemma partialWord_keeps_less_witness :
  length (fst (partialWord (mkSimulator 10 it) (js "pallone") (fun _ => (1 # 2)%Q) 0))
  = 5%nat.
Proof.
  refine (proj1 (proj2 (partialWord_keeps_less (mkSimulator 10 it) (js "pallone")
                          (fun _ => (1 # 2)%Q) 0 _ _))); simpl; lia.
Defined.

Lemma getLevelDescription_quotes_rate_witness :
  exists d : string,
    getLevelDescription (mkSimulator 7 it) = Some d /\
    endsWith d "(~45%)" = true /\
    is_Some (getLanguageLabel (mkSimulator 7 it)).
Proof.
  refine (getLevelDescription_quotes_rate (mkSimulator 7 it) _ _).
  - simpl. lia.
  - right. left. reflexivity.
Defined.

Lemma getLevelDescription_unrecognized_witness :
  getLevelDescription (mkSimulator 5 "fr"%string) = None.
Proof.
  refine (proj1 (getLevelDescription_unrecognized (mkSimulator 5 "fr"%string) _)).
  unfold recognized, en, it, agnostic. simpl. intros [H | [H | H]]; discriminate.
Defined.

Lemma relanguage_keeps_level_witness :
  new_DeafSimulator (mkConfig 10 it) = Normal (mkSimulator 10 it).
Proof.
  refine (proj1 (relanguage_keeps_level (mkConfig 15 en) (mkSimulator 10 en) it _)).
  reflexivity.
Defined.

Lemma escapeJs_injective_witness : js "it" ++ [39%N; 115%N] = [105%N; 116%N; 39%N] ++ js "s".
Proof.
  refine (escapeJs_injective _ _ _). reflexivity.
Defined.

Lemma chat_uses_requested_settings_witness :
  snd (fst (chatBegin
              (mkWebConfig (mkApiConfig (js "http://127.0.0.1:8080/v1") (js "") (js "default"))
                 5 en None)
              ∅ (mkChatBody (js "s1") (js "Hello world") 15 it) (fun _ => 0%Q) 0))
  = fst (simulate (mkSimulator 10 it) (js "Hello world") (fun _ => 0%Q) 0).
Proof.
  refine (proj1 (chat_uses_requested_settings
                   (mkWebConfig (mkApiConfig (js "http://127.0.0.1:8080/v1") (js "") (js "default"))
                      5 en None)
                   ∅ (mkChatBody (js "s1") (js "Hello world") 15 it) (fun _ => 0%Q) 0 _)).
  apply map_Forall_empty.
Defined.
